(** * Public-transport usage analytics: the dashboard script, embedded

    A shallow embedding of [project_main.py], the Streamlit script that
    filters the usage table, computes the KPIs, ranks the
    (country, transport type) groups, words the insights and builds the
    table offered for download.

    Tables are lists of rows; a column is the list of one field, and the
    column operations of pandas ([isin], [between], [>=], [&], boolean
    indexing, [sum], [mean], [groupby], [round]) are list functions named
    after them.  The frames the script binds to variables live in a store,
    so that [copy] and column assignment keep their aliasing.

    Numbers.  A float64 value is [Num q] for a rational [q], or one of the
    three special values.  Finite arithmetic is exact: the rounding of
    sums, means and [round(2)], overflow, the wrap-around of an int64 sum
    and the sign of zero are outside this model, so nothing below is
    claimed about a last digit.  Division follows numpy: a zero divisor
    gives an infinity or NaN, never an exception.

    Missing values.  [read_csv] loads an empty cell, and a cell spelled
    [NA], [NaN], [null] or the like, as a missing value.  In the two text
    columns a cell is therefore an [option string]; [isin] matches a
    missing cell with a missing value among the selected ones, [unique]
    lists it, and [groupby] leaves out the rows whose key has a missing
    part.  The numeric cells of a row are present. *)

From Stdlib Require Import QArith Qround Qabs Ascii Lqa.
From Stdlib Require Import Sorting.Sorted Sorting.Permutation.
From stdpp Require Import gmap strings list fin_maps sorting pretty.

Local Open Scope Z_scope.

(** ** Numbers *)

Inductive float64 : Type :=
| Num (q : Q)
| PInf
| NInf
| NaN.

Global Instance float64_inhabited : Inhabited float64 := populate NaN.

Definition is_finite (x : float64) : bool :=
  match x with Num _ => true | _ => false end.

Definition isnan (x : float64) : bool :=
  match x with NaN => true | _ => false end.

(** The sign of a rational, as the comparison of zero with it: [Lt] for
    a positive number, [Gt] for a negative one. *)
Definition Qsign (q : Q) : comparison := (0 ?= Qnum q).

Definition inf_of (c : comparison) : float64 :=
  match c with Eq => NaN | Lt => PInf | Gt => NInf end.

Definition fsign (x : float64) : comparison :=
  match x with
  | Num q => Qsign q
  | PInf => Lt
  | NInf => Gt
  | NaN => Eq
  end.

Definition sign_mul (a b : comparison) : comparison :=
  match a, b with
  | Eq, _ | _, Eq => Eq
  | Lt, Lt | Gt, Gt => Lt
  | _, _ => Gt
  end.

(** [x / y] of numpy ([true_divide]). *)
Definition fdiv (x y : float64) : float64 :=
  match x, y with
  | NaN, _ | _, NaN => NaN
  | Num a, Num b =>
      if Qeq_bool b 0 then inf_of (Qsign a) else Num (a / b)
  | Num _, _ => Num 0
  | _, Num b =>
      match Qsign b with Gt => inf_of (CompOpp (fsign x)) | _ => x end
  | _, _ => NaN
  end.

(** [x * y]. *)
Definition fmul (x y : float64) : float64 :=
  match x, y with
  | NaN, _ | _, NaN => NaN
  | Num a, Num b => Num (a * b)
  | _, _ => inf_of (sign_mul (fsign x) (fsign y))
  end.

(** [x - y]. *)
Definition fsub (x y : float64) : float64 :=
  match x, y with
  | NaN, _ | _, NaN => NaN
  | Num a, Num b => Num (a - b)
  | PInf, PInf | NInf, NInf => NaN
  | PInf, (Num _ | NInf) | Num _, NInf => PInf
  | NInf, (Num _ | PInf) | Num _, PInf => NInf
  end.

(** Comparisons: every comparison with NaN is false. *)
Definition flt (x y : float64) : bool :=
  match x, y with
  | NaN, _ | _, NaN => false
  | Num a, Num b => negb (Qle_bool b a)
  | NInf, NInf | PInf, (Num _ | PInf | NInf) | Num _, NInf => false
  | NInf, (Num _ | PInf) | Num _, PInf => true
  end.

Definition fgt (x y : float64) : bool := flt y x.

Definition feq (x y : float64) : bool :=
  match x, y with
  | Num a, Num b => Qeq_bool a b
  | PInf, PInf | NInf, NInf => true
  | _, _ => false
  end.

Definition fne (x y : float64) : bool := negb (feq x y).

(** Rounding to the nearest integer, ties to even ([rint]). *)
Definition rint (q : Q) : Z :=
  let f := Qfloor q in
  match (q - inject_Z f ?= 1 # 2)%Q with
  | Lt => f
  | Gt => f + 1
  | Eq => if Z.even f then f else f + 1
  end.

(** [round(x, 2)] of numpy: scale by 100, [rint], scale back. *)
Definition round2 (x : float64) : float64 :=
  match x with
  | Num q => Num (inject_Z (rint (q * 100)) / 100)
  | _ => x
  end.

(** ** The table *)

(** One line of [Public_Transport_Usage_Trends2.csv], as [read_csv]
    loads it (line 10).  [None] in a text column is a missing value; the
    numeric cells of a row are finite numbers. *)
Record Row : Type := mkRow {
  Country : option string;
  Year : Z;
  Transport_Type : option string;
  Annual_Usage : Q;
  Customer_Satisfaction_Score : Q;
  CO2_Emissions_kg_per_passenger : Q;
  Urbanization_Rate_pct : Q
}.

(** The values of the sidebar widgets.  The options of the two
    selections are the distinct values of a column, a missing value among
    them when the column has one. *)
Record FilterParams : Type := mkParams {
  countries : list (option string);
  years : Z * Z;
  transport_types : list (option string);
  min_satisfaction : Q
}.

(** ** Column operations *)

(** [Series.isin(values)]: a missing cell is in [values] when a missing
    value is. *)
Definition isin (col : list (option string)) (values : list (option string))
    : list bool :=
  map (fun c => bool_decide (c ∈ values)) col.

(** [Series.between(left, right)], both ends included. *)
Definition between (col : list Z) (left right : Z) : list bool :=
  map (fun y => (left <=? y) && (y <=? right)) col.

Definition ge (col : list Q) (x : Q) : list bool :=
  map (fun v => Qle_bool x v) col.

Definition eq_int (col : list Z) (y : Z) : list bool :=
  map (fun v => v =? y) col.

(** Elementwise [&]. *)
Definition mask_and (a b : list bool) : list bool := zip_with andb a b.

(** [frame[mask]]: the rows whose mask entry is true, in order. *)
Fixpoint getitem_mask {A : Type} (rows : list A) (mask : list bool) : list A :=
  match rows, mask with
  | r :: rows', b :: mask' =>
      if b then r :: getitem_mask rows' mask' else getitem_mask rows' mask'
  | _, _ => []
  end.

Definition sum (col : list Q) : Q := fold_left Qplus col 0%Q.

Definition count {A : Type} (col : list A) : Q := inject_Z (Z.of_nat (length col)).

(** [Series.mean()]: NaN on an empty column. *)
Definition mean (col : list Q) : float64 := fdiv (Num (sum col)) (Num (count col)).

(** ** Filtering (lines 48-53) *)

Definition filter_mask (df : list Row) (p : FilterParams) : list bool :=
  mask_and
    (mask_and
       (mask_and (isin (map Country df) (countries p))
                 (between (map Year df) (fst (years p)) (snd (years p))))
       (isin (map Transport_Type df) (transport_types p)))
    (ge (map Customer_Satisfaction_Score df) (min_satisfaction p)).

Definition filtered_df (df : list Row) (p : FilterParams) : list Row :=
  getitem_mask df (filter_mask df p).

(** The four conditions on one row, as a proposition. *)
Definition matches (p : FilterParams) (r : Row) : Prop :=
  Country r ∈ countries p
  ∧ fst (years p) <= Year r <= snd (years p)
  ∧ Transport_Type r ∈ transport_types p
  ∧ (min_satisfaction p <= Customer_Satisfaction_Score r)%Q.

(** [selects P l l']: [l'] keeps, in order and as often as they occur,
    exactly the entries of [l] that satisfy [P]. *)
Inductive selects {A : Type} (P : A → Prop) : list A → list A → Prop :=
| selects_nil : selects P [] []
| selects_keep x l l' : P x → selects P l l' → selects P (x :: l) (x :: l')
| selects_drop x l l' : ¬ P x → selects P l l' → selects P (x :: l) l'.

(** ** Text of numbers *)

Definition zero_pad (width : nat) (s : string) : string :=
  Nat.iter (width - String.length s) (String "0"%char) s.

(** [format(x, ".<d>f")]. *)
Definition format_f (d : nat) (x : float64) : string :=
  match x with
  | NaN => "nan"
  | PInf => "inf"
  | NInf => "-inf"
  | Num q =>
      let unit := 10 ^ Z.of_nat d in
      let scaled := Z.abs (rint (q * inject_Z unit)) in
      (match Qsign q with Gt => "-" | _ => "" end)
        +:+ pretty (scaled / unit)
        +:+ (match d with
             | O => ""
             | _ => "." +:+ zero_pad d (pretty (scaled mod unit))
             end)
  end.

(** ** KPIs (lines 60-89) *)

Definition total_usage (fd : list Row) : Q := sum (map Annual_Usage fd).

(** [fd[fd['Year'] == y]['Annual_Usage'].sum()]. *)
Definition usage_in_year (fd : list Row) (y : Z) : Q :=
  sum (map Annual_Usage (getitem_mask fd (eq_int (map Year fd) y))).

Definition growth_rate (fd : list Row) (years : Z * Z) : float64 :=
  if negb (snd years =? fst years) then
    fmul
      (fdiv (Num (usage_in_year fd (snd years) - usage_in_year fd (fst years)))
            (Num (usage_in_year fd (fst years))))
      (Num 100)
  else Num 0.

Definition avg_satisfaction (fd : list Row) : float64 :=
  mean (map Customer_Satisfaction_Score fd).

(** [Series.max()]: NaN on an empty column. *)
Definition max_col (col : list Q) : float64 :=
  match col with
  | [] => NaN
  | x :: rest => Num (fold_left (fun m v => if Qle_bool m v then v else m) rest x)
  end.

Definition best_satisfaction (df : list Row) : float64 :=
  max_col (map Customer_Satisfaction_Score df).

Definition avg_emissions (fd : list Row) : float64 :=
  mean (map CO2_Emissions_kg_per_passenger fd).

Definition efficiency_score (fd : list Row) : float64 :=
  fdiv (fdiv (fmul (avg_satisfaction fd) (Num (total_usage fd))) (Num 1000000))
       (avg_emissions fd).

(** [Series.unique()]: the distinct values, in order of first appearance. *)
Definition unique {A : Type} `{EqDecision A} (col : list A) : list A :=
  reverse (remove_dups (reverse col)).

Definition countries_count (fd : list Row) : nat :=
  length (unique (map Country fd)).

(** ** Grouping *)

(** Tuples of group keys are ordered lexicographically. *)
Definition lex_leb {A B : Type} (cmp : A → A → comparison) (leb : B → B → bool)
    (a b : A * B) : bool :=
  match cmp a.1 b.1 with
  | Lt => true
  | Eq => leb a.2 b.2
  | Gt => false
  end.

Definition key_le {A B : Type} (cmp : A → A → comparison) (leb : B → B → bool)
    (a b : A * B) : Prop :=
  lex_leb cmp leb a b = true.

Global Instance key_le_dec {A B : Type} (cmp : A → A → comparison)
    (leb : B → B → bool) : RelDecision (key_le cmp leb).
Proof. intros a b. unfold key_le. apply _. Defined.

(** [groupby(keys)] with the defaults [sort=True] and [dropna=True]: one
    group for each key that occurs, the keys in increasing order, each
    group holding its rows in table order.  [key] is [None] on a row with
    a missing value in a key column: such rows are in no group. *)
Definition groupby {A K : Type} `{EqDecision K} (R : relation K)
    `{RelDecision K K R} (key : A → option K) (rows : list A) : list (K * list A) :=
  map (fun k => (k, filter (fun r => key r = Some k) rows))
      (merge_sort R (unique (omap key rows))).

Definition group_key : Type := string * string.

Definition key_of (r : Row) : option group_key :=
  c ← Country r; t ← Transport_Type r; Some (c, t).

Definition year_type_of (r : Row) : option (Z * string) :=
  t ← Transport_Type r; Some (Year r, t).

Definition by_country_type : relation group_key := key_le String.compare String.leb.

Definition by_year_type : relation (Z * string) := key_le Z.compare String.leb.

(** [groupby(['Year','Transport_Type'])['Annual_Usage'].sum().reset_index()]
    (line 146). *)
Definition yearly_data (fd : list Row) : list (Z * string * Q) :=
  map (fun g => (g.1, sum (map Annual_Usage g.2)))
      (groupby by_year_type year_type_of fd).

(** ** Performance score and ranking (lines 177-188) *)

(** The column assigned to [Performance_Score]. *)
Definition performance_score (sat co2 : list Q) : list Q :=
  zip_with Qplus (map (fun s => s * 20)%Q sat)
                 (map (fun c => (100 - c) * (1 # 2))%Q co2).

(** A row of [top_performers]. *)
Record Performer : Type := mkPerformer {
  tp_Country : string;
  tp_Transport_Type : string;
  tp_Performance_Score : float64;
  tp_Annual_Usage : Q;
  tp_Customer_Satisfaction_Score : float64;
  tp_CO2_Emissions_kg_per_passenger : float64
}.

(** The four aggregates of one group of scored rows. *)
Definition agg_performance (g : group_key * list (Row * Q)) : Performer :=
  {| tp_Country := g.1.1;
     tp_Transport_Type := g.1.2;
     tp_Performance_Score := mean (map snd g.2);
     tp_Annual_Usage := sum (map (fun x => Annual_Usage x.1) g.2);
     tp_Customer_Satisfaction_Score :=
       mean (map (fun x => Customer_Satisfaction_Score x.1) g.2);
     tp_CO2_Emissions_kg_per_passenger :=
       mean (map (fun x => CO2_Emissions_kg_per_passenger x.1) g.2) |}.

(** [groupby(['Country','Transport_Type']).agg({...}).reset_index()]: the
    group aggregates before they are ranked. *)
Definition performance_groups (scored : list (Row * Q)) : list Performer :=
  map agg_performance (groupby by_country_type (fun x => key_of x.1) scored).

(** The order [sort_values(ascending=False)] puts two keys in: larger
    first, NaN last. *)
Definition desc_le (x y : float64) : bool :=
  match x, y with
  | _, NaN => true
  | NaN, _ => false
  | _, _ => negb (flt x y)
  end.

(** [frame.take(indexer)]. *)
Definition take {A : Type} (indexer : list nat) (rows : list A) : list A :=
  omap (fun i => rows !! i) indexer.

Section Ranking.
(** [sort_values] is called with the default [kind='quicksort'].  The
    ranking is written over the indexer that call computes from the key
    column; [pandas_indexer] below is that indexer, with numpy's portable
    routine behind it, and [sorts_descending] is what it is shown to
    do. *)
Variable indexer : list float64 → list nat.

Definition sort_values_desc {A : Type} (by_ : A → float64) (rows : list A) : list A :=
  take (indexer (map by_ rows)) rows.

Definition top_performers (scored : list (Row * Q)) : list Performer :=
  sort_values_desc tp_Performance_Score (performance_groups scored).
End Ranking.

(** What a descending sort promises, whatever its algorithm: the indexer
    lists every position once, and the keys it picks never increase. *)
Definition sorts_descending (indexer : list float64 → list nat) : Prop :=
  ∀ keys : list float64,
    indexer keys ≡ₚ seq 0 (length keys)
    ∧ Sorted (fun x y => desc_le x y = true) (take (indexer keys) keys).

(** ** The default sort, as numpy implements it portably

    With [kind='quicksort'], pandas' [nargsort] hands the key column to
    numpy's argsort, whose portable routine ([aquicksort_] of
    [npysort/quicksort.cpp]) is an introsort: median-of-three
    partitioning, insertion sort on ranges of at most 17 entries, and
    heapsort ([aheapsort_] of [npysort/heapsort.cpp]) on a range that is
    taken from the stack once twice the bit length of the input has been
    used up as depth.  [a] is the array of positions being sorted, [v] the
    key column.  The loops run on fuel; [None] stands for fuel that has
    run out, which [npy_argsort_sorts] shows never happens. *)

(** The order on doubles: NaN sorts last. *)
Definition npy_lt (x y : float64) : bool := flt x y || (isnan y && negb (isnan x)).

Definition swap (a : list nat) (i j : nat) : list nat :=
  <[i := a !!! j]> (<[j := a !!! i]> a).

(** [do ++pi; while (v[*pi] < vp)], entered at [i]. *)
Fixpoint scan_up (fuel : nat) (v : list float64) (vp : float64) (a : list nat)
    (i : nat) : nat :=
  match fuel with
  | O => i
  | S fuel' => if npy_lt (v !!! (a !!! i)) vp then scan_up fuel' v vp a (S i) else i
  end.

(** [do --pj; while (vp < v[*pj])], entered at [j]. *)
Fixpoint scan_down (fuel : nat) (v : list float64) (vp : float64) (a : list nat)
    (j : nat) : nat :=
  match fuel with
  | O => j
  | S fuel' => if npy_lt vp (v !!! (a !!! j)) then scan_down fuel' v vp a (pred j) else j
  end.

Fixpoint partition_loop (fuel : nat) (v : list float64) (vp : float64)
    (a : list nat) (pi pj : nat) : list nat * nat :=
  match fuel with
  | O => (a, pi)
  | S fuel' =>
      let pi' := scan_up (length a) v vp a (S pi) in
      let pj' := scan_down (length a) v vp a (pred pj) in
      if (pj' <=? pi')%nat then (a, pi')
      else partition_loop fuel' v vp (swap a pi' pj') pi' pj'
  end.

(** One partition of the range [pl..pr]: the array and where the pivot
    ends up. *)
Definition partition (v : list float64) (a : list nat) (pl pr : nat) : list nat * nat :=
  let key i a := v !!! (a !!! i) in
  let pm := (pl + (pr - pl) / 2)%nat in
  let a := if npy_lt (key pm a) (key pl a) then swap a pm pl else a in
  let a := if npy_lt (key pr a) (key pm a) then swap a pr pm else a in
  let a := if npy_lt (key pm a) (key pl a) then swap a pm pl else a in
  let vp := key pm a in
  let a := swap a pm (pr - 1) in
  let '(a, pi) := partition_loop (length a) v vp a pl (pr - 1) in
  (swap a pi (pr - 1), pi).

(** The inner loop of the insertion sort: the entry [vi] moves down from
    [pj] while it is smaller than the entry below. *)
Fixpoint sift (fuel : nat) (v : list float64) (a : list nat) (pl pj vi : nat)
    : list nat :=
  match fuel with
  | O => <[pj := vi]> a
  | S fuel' =>
      if (pl <? pj)%nat && npy_lt (v !!! vi) (v !!! (a !!! (pj - 1)%nat))
      then sift fuel' v (<[pj := a !!! (pj - 1)%nat]> a) pl (pj - 1) vi
      else <[pj := vi]> a
  end.

Definition insertion (v : list float64) (a : list nat) (pl pr : nat) : list nat :=
  foldl (λ a pi, sift (length a) v a pl pi (a !!! pi)) a (seq (S pl) (pr - pl)).

(** [aheapsort_] sorts the [n] entries from [pl] on and counts them from
    1: its entry [k] is the array's entry [pl + k - 1].  The inner loop of
    both its phases lets [tmp] sink from entry [i] of the first [n]: the
    larger child moves up while it is larger than [tmp]. *)
Fixpoint sift_down (fuel : nat) (v : list float64) (a : list nat)
    (pl n i tmp : nat) : list nat :=
  match fuel with
  | O => <[(pl + i - 1)%nat := tmp]> a
  | S fuel' =>
      let j := (2 * i)%nat in
      if (j <=? n)%nat then
        let j :=
          if (j <? n)%nat
             && npy_lt (v !!! (a !!! (pl + j - 1)%nat)) (v !!! (a !!! (pl + (j + 1) - 1)%nat))
          then (j + 1)%nat else j in
        if npy_lt (v !!! tmp) (v !!! (a !!! (pl + j - 1)%nat))
        then sift_down fuel' v (<[(pl + i - 1)%nat := a !!! (pl + j - 1)%nat]> a) pl n j tmp
        else <[(pl + i - 1)%nat := tmp]> a
      else <[(pl + i - 1)%nat := tmp]> a
  end.

(** [for (l = n >> 1; l > 0; --l)]: the heap is built. *)
Definition heapify (v : list float64) (a : list nat) (pl n : nat) : list nat :=
  foldl (λ a l, sift_down n v a pl n l (a !!! (pl + l - 1)%nat)) a
        (reverse (seq 1 (n / 2))).

(** [for (; n > 1;)]: the largest entry goes to the end of the heap, which
    shrinks by one. *)
Definition extract_all (v : list float64) (a : list nat) (pl n : nat) : list nat :=
  foldl (λ a n,
           let tmp := a !!! (pl + n - 1)%nat in
           let a := <[(pl + n - 1)%nat := a !!! pl]> a in
           sift_down n v a pl (n - 1) 1 tmp)
        a (reverse (seq 2 (n - 1))).

Definition aheapsort (v : list float64) (a : list nat) (pl n : nat) : list nat :=
  extract_all v (heapify v a pl n) pl n.

(** The outer loop, with its stack of ranges still to sort.  [inner] tells
    that the run is inside the partitioning loop, where the depth is not
    looked at; the depth is checked when a range is taken up. *)
Fixpoint aquicksort_loop (fuel : nat) (v : list float64) (a : list nat)
    (pl pr : nat) (cdepth : Z) (stack : list (nat * nat * Z)) (inner : bool)
    : option (list nat) :=
  match fuel with
  | O => None
  | S fuel' =>
      if negb inner && (cdepth <? 0) then
        let a := aheapsort v a pl (pr - pl + 1) in
        match stack with
        | [] => Some a
        | (pl', pr', d) :: stack' => aquicksort_loop fuel' v a pl' pr' d stack' false
        end
      else if (16 <? pr - pl)%nat then
        let '(a, pi) := partition v a pl pr in
        if (pi - pl <? pr - pi)%nat then
          aquicksort_loop fuel' v a pl (pi - 1) (cdepth - 1)
                          ((S pi, pr, cdepth - 1) :: stack) true
        else
          aquicksort_loop fuel' v a (S pi) pr (cdepth - 1)
                          ((pl, (pi - 1)%nat, cdepth - 1) :: stack) true
      else
        let a := insertion v a pl pr in
        match stack with
        | [] => Some a
        | (pl', pr', d) :: stack' => aquicksort_loop fuel' v a pl' pr' d stack' false
        end
  end.

(** [v.argsort(kind='quicksort')]. *)
Definition npy_argsort (v : list float64) : option (list nat) :=
  let n := length v in
  aquicksort_loop (2 * n + 1) v (seq 0 n) 0 (n - 1) (2 * Z.log2 (Z.of_nat n)) [] false.

(** pandas' [nargsort(items, kind='quicksort', ascending=False,
    na_position='last')]: the keys that are not NaN are reversed, sorted
    in increasing order, and the order reversed again; the positions of
    the NaN keys follow. *)
Definition nargsort (items : list float64) : option (list nat) :=
  let idx := seq 0 (length items) in
  let mask := map isnan items in
  let non_nans := reverse (getitem_mask items (map negb mask)) in
  let non_nan_idx := reverse (getitem_mask idx (map negb mask)) in
  let nan_idx := getitem_mask idx mask in
  order ← npy_argsort non_nans;
  Some (reverse (take order non_nan_idx) ++ nan_idx).

Definition pandas_indexer (keys : list float64) : list nat :=
  default [] (nargsort keys).

(** ** Insights (lines 221-243) *)

Definition strong_growth (g : float64) : string :=
  "🚀 **Strong Growth**: " +:+ format_f 1 g
    +:+ "% growth indicates expanding market adoption".

Definition declining_usage (g : float64) : string :=
  "⚠️ **Declining Usage**: " +:+ format_f 1 g
    +:+ "% decline suggests market challenges".

Definition high_satisfaction : string :=
  "⭐ **High Satisfaction**: Customer satisfaction exceeds 4.0, indicating excellent service quality".

Definition low_satisfaction : string :=
  "📉 **Low Satisfaction**: Customer satisfaction below 3.0 requires immediate attention".

Definition eco_friendly : string :=
  "🌱 **Eco-Friendly**: Low emissions indicate environmentally sustainable transport".

Definition high_emissions : string :=
  "🌍 **High Emissions**: Consider green initiatives to reduce environmental impact".

Definition top_performer (best_transport : string) : string :=
  "🏆 **Top Performer**: " +:+ best_transport
    +:+ " shows the best overall performance score".

(** [top_performers.iloc[0]['Transport_Type']], or the sentinel. *)
Definition best_transport (top : list Performer) : string :=
  match top with
  | first :: _ => tp_Transport_Type first
  | [] => "N/A"
  end.

Definition insights (growth avg_sat avg_em : float64) (top : list Performer)
    : list string :=
  (if fgt growth (Num 10) then [strong_growth growth]
   else if flt growth (Num (-5)) then [declining_usage growth]
   else [])
  ++ (if fgt avg_sat (Num 4) then [high_satisfaction]
      else if flt avg_sat (Num 3) then [low_satisfaction]
      else [])
  ++ (if flt avg_em (Num 2) then [eco_friendly]
      else if fgt avg_em (Num 5) then [high_emissions]
      else [])
  ++ [top_performer (best_transport top)].

(** ** The detailed table (lines 253-265) *)

(** A row of the aggregated frame, before the ratio columns are added. *)
Record Aggregates : Type := mkAggregates {
  a_Country : string;
  a_Transport_Type : string;
  a_Total_Usage : float64;
  a_Avg_Annual_Usage : float64;
  a_Avg_Satisfaction : float64;
  a_Avg_CO2_Emissions : float64;
  a_Avg_Urbanization : float64
}.

(** A row of [display_df]. *)
Record DisplayRow : Type := mkDisplayRow {
  d_Country : string;
  d_Transport_Type : string;
  Total_Usage : float64;
  Avg_Annual_Usage : float64;
  Avg_Satisfaction : float64;
  Avg_CO2_Emissions : float64;
  Avg_Urbanization : float64;
  Usage_per_Urban_pct : float64;
  Satisfaction_Efficiency : float64
}.

(** [.agg({...})] on one group. *)
Definition agg_display (g : group_key * list Row) : Aggregates :=
  {| a_Country := g.1.1;
     a_Transport_Type := g.1.2;
     a_Total_Usage := Num (sum (map Annual_Usage g.2));
     a_Avg_Annual_Usage := mean (map Annual_Usage g.2);
     a_Avg_Satisfaction := mean (map Customer_Satisfaction_Score g.2);
     a_Avg_CO2_Emissions := mean (map CO2_Emissions_kg_per_passenger g.2);
     a_Avg_Urbanization := mean (map Urbanization_Rate_pct g.2) |}.

(** [.round(2)] on the aggregated frame: every numeric column. *)
Definition round_row (a : Aggregates) : Aggregates :=
  {| a_Country := a_Country a;
     a_Transport_Type := a_Transport_Type a;
     a_Total_Usage := round2 (a_Total_Usage a);
     a_Avg_Annual_Usage := round2 (a_Avg_Annual_Usage a);
     a_Avg_Satisfaction := round2 (a_Avg_Satisfaction a);
     a_Avg_CO2_Emissions := round2 (a_Avg_CO2_Emissions a);
     a_Avg_Urbanization := round2 (a_Avg_Urbanization a) |}.

(** The two column assignments of lines 264-265, on one row. *)
Definition add_ratios (a : Aggregates) : DisplayRow :=
  {| d_Country := a_Country a;
     d_Transport_Type := a_Transport_Type a;
     Total_Usage := a_Total_Usage a;
     Avg_Annual_Usage := a_Avg_Annual_Usage a;
     Avg_Satisfaction := a_Avg_Satisfaction a;
     Avg_CO2_Emissions := a_Avg_CO2_Emissions a;
     Avg_Urbanization := a_Avg_Urbanization a;
     Usage_per_Urban_pct := fdiv (a_Total_Usage a) (a_Avg_Urbanization a);
     Satisfaction_Efficiency := fdiv (a_Avg_Satisfaction a) (a_Avg_CO2_Emissions a) |}.

Definition aggregated (fd : list Row) : list Aggregates :=
  map agg_display (groupby by_country_type key_of fd).

Definition display_df (fd : list Row) : list DisplayRow :=
  map add_ratios (map round_row (aggregated fd)).

(** ** The store of frames and the page *)

(** The script binds three frames of the table's schema to variables:
    [df], [filtered_df] and [filtered_df_copy].  A frame is an object: a
    variable holds its location, [copy] makes a new object and a column
    assignment changes the object in place.  The grouped tables are plain
    values, since the script never shares one. *)
Definition loc : Type := nat.

Record DataFrame : Type := mkFrame {
  frame_rows : list Row;
  frame_added : list (string * list Q)
}.

(** What the script puts on the page.  Charts carry the table they are
    drawn from; drawing is Altair's. *)
Inductive chart : Type :=
| Heatmap (of_rows : list Row)
| BubbleChart (of_rows : list Row)
| TrendChart (of_yearly : list (Z * string * Q))
| Histogram (of_rows : list Row)
| TopChart (of_top : list Performer)
| EfficiencyChart (of_rows : list Row).

Inductive element : Type :=
| PageConfig (page_title : string)
| Title (s : string)
| Markdown (s : string)
| SidebarHeader (s : string)
| Widget (label : string)
| Error (msg : string)
| Subheader (s : string)
| Columns (n : nat)
| Metric (label value : string) (delta : option string)
| AltairChart (c : chart)
| Dataframe (table : list DisplayRow)
| DownloadButton (label : string) (table : list DisplayRow) (file_name : string)
| Caption (s : string).

Record world : Type := mkWorld {
  frames : gmap loc DataFrame;
  page : list element
}.

(** A run returns, is halted by [st.stop()], or raises. *)
Inductive outcome (A : Type) : Type :=
| Returned (a : A)
| Stopped
| Raised (e : string).
Arguments Returned {A} a.
Arguments Stopped {A}.
Arguments Raised {A} e.

Definition script (A : Type) : Type := world → outcome A * world.

Global Instance script_ret : MRet script := λ A a w, (Returned a, w).

Global Instance script_bind : MBind script := λ A B f m w,
  match m w with
  | (Returned a, w') => f a w'
  | (Stopped, w') => (Stopped, w')
  | (Raised e, w') => (Raised e, w')
  end.

Definition emit (e : element) : script unit :=
  λ w, (Returned (), {| frames := frames w; page := page w ++ [e] |}).

Definition st_stop {A : Type} : script A := λ w, (Stopped, w).

Definition raise {A : Type} (e : string) : script A := λ w, (Raised e, w).

(** A new frame object. *)
Definition new_frame (f : DataFrame) : script loc :=
  λ w, let l := fresh (dom (frames w)) in
       (Returned l, {| frames := <[l := f]> (frames w); page := page w |}).

Definition read_frame (l : loc) : script DataFrame :=
  λ w, match frames w !! l with
       | Some f => (Returned f, w)
       | None => (Raised "NameError", w)
       end.

(** [frame.copy()]. *)
Definition copy (l : loc) : script loc := f ← read_frame l; new_frame f.

(** [frame[mask]]: a new frame. *)
Definition getitem (l : loc) (mask : list bool) : script loc :=
  f ← read_frame l;
  new_frame {| frame_rows := getitem_mask (frame_rows f) mask;
               frame_added :=
                 map (λ c, (c.1, getitem_mask c.2 mask)) (frame_added f) |}.

Fixpoint set_column (name : string) (col : list Q) (cols : list (string * list Q))
    : list (string * list Q) :=
  match cols with
  | [] => [(name, col)]
  | c :: cols' =>
      if decide (c.1 = name) then (name, col) :: cols'
      else c :: set_column name col cols'
  end.

(** [frame[name] = col]: the object at [l] gets the column. *)
Definition write_frame (l : loc) (f : DataFrame) : script unit :=
  λ w, (Returned (), {| frames := <[l := f]> (frames w); page := page w |}).

Definition setitem (l : loc) (name : string) (col : list Q) : script unit :=
  f ← read_frame l;
  if decide (length col = length (frame_rows f)) then
    write_frame l {| frame_rows := frame_rows f;
                     frame_added := set_column name col (frame_added f) |}
  else raise "ValueError".

Definition get_column (name : string) (f : DataFrame) : script (list Q) :=
  match list_find (λ c, c.1 = name) (frame_added f) with
  | Some (_, c) => mret c.2
  | None => raise "KeyError"
  end.

Fixpoint for_each {A : Type} (l : list A) (body : A → script unit) : script unit :=
  match l with
  | [] => mret ()
  | x :: l' => body x;; for_each l' body
  end.

(** ** The script *)

Definition no_data : string :=
  "No data matches your filters. Please adjust your selection.".

(** [Series.min()] and [Series.max()] of the year column: there is none
    on an empty column (pandas answers NaN). *)
Definition min_int (col : list Z) : option Z :=
  match col with
  | [] => None
  | x :: rest => Some (foldl Z.min x rest)
  end.

Definition max_int (col : list Z) : option Z :=
  match col with
  | [] => None
  | x :: rest => Some (foldl Z.max x rest)
  end.

(** [Series.min()]: NaN on an empty column. *)
Definition min_col (col : list Q) : float64 :=
  match col with
  | [] => NaN
  | x :: rest => Num (fold_left (fun m v => if Qle_bool v m then v else m) rest x)
  end.

(** [int(x)]: it raises on NaN. *)
Definition int_ (x : option Z) : script Z :=
  match x with
  | Some z => mret z
  | None => raise "ValueError"
  end.

(** [st.sidebar.slider(label, min_value, max_value, value)]: the widget
    refuses a range that does not go from a smaller to a larger value.
    The script passes a column's minimum and maximum, so it is refused a
    slider when the column holds one value only. *)
Definition slider (label : string) (min_value max_value : float64) : script unit :=
  if flt min_value max_value then emit (Widget label)
  else raise "StreamlitInvalidMinMaxError".

(** Lines 15-45: the page header and the sidebar, built from the loaded
    table.  The values the widgets return are the [FilterParams] the
    script is run with. *)
Definition header (df : loc) : script unit :=
  emit (PageConfig "Advanced Transport Analytics");;
  emit (Title "🚍 Advanced Public Transport Analytics Dashboard");;
  emit (Markdown "*Discover hidden patterns and actionable insights in transport usage data*");;
  emit (SidebarHeader "🔍 Advanced Filters");;
  raw ← read_frame df;
  let rows := frame_rows raw in
  emit (Widget "Select Countries");;
  min_value ← int_ (min_int (map Year rows));
  max_value ← int_ (max_int (map Year rows));
  slider "Year Range" (Num (inject_Z min_value)) (Num (inject_Z max_value));;
  emit (Widget "Transport Types");;
  slider "Minimum Satisfaction Score"
         (min_col (map Customer_Satisfaction_Score rows))
         (max_col (map Customer_Satisfaction_Score rows)).

(** Lines 48-57: the filtered frame, and the halt when it is empty. *)
Definition filter_stage (df : loc) (p : FilterParams) : script loc :=
  raw ← read_frame df;
  fd ← getitem df (filter_mask (frame_rows raw) p);
  filtered ← read_frame fd;
  match frame_rows filtered with
  | [] => emit (Error no_data);; st_stop
  | _ :: _ => mret fd
  end.

(** Lines 60-89. *)
Definition kpi_stage (df fd : loc) (p : FilterParams) : script unit :=
  raw ← read_frame df;
  filtered ← read_frame fd;
  let rows := frame_rows filtered in
  let growth := growth_rate rows (years p) in
  let avg_sat := avg_satisfaction rows in
  let best := best_satisfaction (frame_rows raw) in
  emit (Subheader "🎯 Strategic Insights");;
  emit (Columns 5);;
  emit (Metric "Total Usage"
          (format_f 1 (fdiv (Num (total_usage rows)) (Num 1000000)) +:+ "M")
          (if fne growth (Num 0) then Some (format_f 1 growth +:+ "% growth")
           else None));;
  emit (Metric "Avg Satisfaction" (format_f 2 avg_sat +:+ "/5")
          (Some (if flt avg_sat best then format_f 2 (fsub avg_sat best)
                 else "Excellent")));;
  emit (Metric "CO2 per Passenger" (format_f 2 (avg_emissions rows) +:+ " kg") None);;
  emit (Metric "Efficiency Score" (format_f 1 (efficiency_score rows)) None);;
  emit (Metric "Markets Analyzed" (pretty (countries_count rows)) None).

(** Lines 92-171.  The heatmap shows the correlation matrix of four
    columns; its coefficients are not computed here. *)
Definition charts_stage (fd : loc) : script unit :=
  filtered ← read_frame fd;
  let rows := frame_rows filtered in
  emit (Subheader "🔥 Performance Correlation Matrix");;
  emit (Markdown "*Discover which factors drive transport success*");;
  emit (AltairChart (Heatmap rows));;
  emit (Subheader "🌟 Transport Performance Matrix");;
  emit (Markdown "*Size = Usage Volume | Color = Transport Type | Position = Satisfaction vs Emissions*");;
  emit (AltairChart (BubbleChart rows));;
  emit (Subheader "📈 Growth Trends & Patterns");;
  emit (Columns 2);;
  emit (Markdown "**Usage Evolution by Transport Type**");;
  emit (AltairChart (TrendChart (yearly_data rows)));;
  emit (Markdown "**Satisfaction Score Distribution**");;
  emit (AltairChart (Histogram rows)).

Section Script.
Variable indexer : list float64 → list nat.

(** Lines 177-188: the scores are written to a copy of the filtered
    frame, and the ranking is computed from the copy. *)
Definition performance_scorer (fd : loc) : script (list Performer) :=
  filtered_df_copy ← copy fd;
  c ← read_frame filtered_df_copy;
  setitem filtered_df_copy "Performance_Score"
    (performance_score (map Customer_Satisfaction_Score (frame_rows c))
                       (map CO2_Emissions_kg_per_passenger (frame_rows c)));;
  c ← read_frame filtered_df_copy;
  scores ← get_column "Performance_Score" c;
  mret (top_performers indexer (zip (frame_rows c) scores)).

(** Lines 174-215. *)
Definition benchmark_stage (fd : loc) : script (list Performer) :=
  emit (Subheader "🏆 Performance Benchmarking");;
  top ← performance_scorer fd;
  filtered ← read_frame fd;
  emit (Columns 2);;
  emit (Markdown "**Top Performing Transport Systems**");;
  emit (AltairChart (TopChart (firstn 10 top)));;
  emit (Markdown "**Efficiency Frontier Analysis**");;
  emit (AltairChart (EfficiencyChart (frame_rows filtered)));;
  mret top.

(** Lines 218-247. *)
Definition insight_stage (fd : loc) (p : FilterParams) (top : list Performer)
    : script unit :=
  filtered ← read_frame fd;
  let rows := frame_rows filtered in
  emit (Subheader "🧠 AI-Powered Insights");;
  for_each
    (insights (growth_rate rows (years p)) (avg_satisfaction rows)
              (avg_emissions rows) top)
    (λ insight, emit (Markdown insight)).

(** Lines 250-276.  The download button is given the CSV text of
    [display_df]; the element records the table that text is made from.
    [today] is the date in the file name. *)
Definition table_stage (fd : loc) (today : string) : script unit :=
  filtered ← read_frame fd;
  let table := display_df (frame_rows filtered) in
  emit (Subheader "📊 Detailed Performance Metrics");;
  emit (Dataframe table);;
  emit (DownloadButton "📥 Download Analysis Results" table
          ("transport_analysis_" +:+ today +:+ ".csv")).

(** Lines 279-287. *)
Definition footer : script unit :=
  emit (Markdown "---");;
  emit (Markdown "
**Methodology Notes:**
- Performance Score = (Satisfaction × 20) + (Environmental Score × 0.5)
- Efficiency Score = (Satisfaction × Usage) / CO2 Emissions  
- Environmental Score = 100 - CO2 Emissions per passenger
- Usage per Urban % = Total Usage / Urbanization Rate
");;
  emit (Caption "Built with ❤️ using Streamlit and Altair | Advanced Analytics Dashboard").

(** The whole script, run on the loaded table and the widget values.
    It returns the locations of [df] and [filtered_df]. *)
Definition main (table : list Row) (p : FilterParams) (today : string)
    : script (loc * loc) :=
  df ← new_frame {| frame_rows := table; frame_added := [] |};
  header df;;
  fd ← filter_stage df p;
  kpi_stage df fd p;;
  charts_stage fd;;
  top ← benchmark_stage fd;
  insight_stage fd p top;;
  table_stage fd today;;
  footer;;
  mret (df, fd).
End Script.

Definition empty_world : world := {| frames := ∅; page := [] |}.






(** The score of one row, and the frame's rows paired with the score
    column as line 178 computes it. *)
Definition row_score (r : Row) : Q :=
  (Customer_Satisfaction_Score r * 20
   + (100 - CO2_Emissions_kg_per_passenger r) * (1 # 2))%Q.

Definition scored_rows (fd : list Row) : list (Row * Q) :=
  zip fd (performance_score (map Customer_Satisfaction_Score fd)
                            (map CO2_Emissions_kg_per_passenger fd)).

(** The ranking the scorer returns for a filtered table. *)
Definition ranking (indexer : list float64 → list nat) (fd : list Row)
    : list Performer :=
  top_performers indexer (scored_rows fd).

(** Tied groups keep, in the ranking, the order the aggregation listed
    them in. *)
Definition keeps_tie_order (groups top : list Performer) : Prop :=
  ∀ (i j : nat) (a b : Performer),
    (i < j)%nat → groups !! i = Some a → groups !! j = Some b →
    feq (tp_Performance_Score a) (tp_Performance_Score b) = true →
    ∃ i' j' : nat, (i' < j')%nat ∧ top !! i' = Some a ∧ top !! j' = Some b.

(** ** The sidebar on first load (lines 22-45)

    A widget holds its default until the user moves it.  There are
    defaults only when the sidebar can be built. *)



(** ** What the sort is shown to do *)

(** The order the sort works with, as a relation: [x] is not after [y]. *)
Definition npy_le (x y : float64) : Prop := npy_lt y x = false.

(** [swaps l r a a']: [a'] is reached from [a] by exchanging entries at
    positions between [l] and [r]. *)
Inductive swaps (l r : nat) : list nat → list nat → Prop :=
| swaps_refl a : swaps l r a a
| swaps_step a i j a' :
    (l <= i <= r)%nat → (l <= j <= r)%nat → swaps l r (swap a i j) a' → swaps l r a a'.

(** The entries of [a] from [l] to [r] pick keys of [v] that never
    decrease. *)
Definition sorted_on (v : list float64) (a : list nat) (l r : nat) : Prop :=
  ∀ i j : nat, (l <= i)%nat → (i < j)%nat → (j <= r)%nat →
    npy_le (v !!! (a !!! i)) (v !!! (a !!! j)).

(** The entries [lo..n] of the heap that starts at [pl] are at least
    their children. *)
Definition heap_on (v : list float64) (a : list nat) (pl lo n : nat) : Prop :=
  ∀ p c : nat, (lo <= p)%nat → c = (2 * p)%nat ∨ c = (2 * p + 1)%nat → (c <= n)%nat →
    npy_le (v !!! (a !!! (pl + c - 1)%nat)) (v !!! (a !!! (pl + p - 1)%nat)).

(** The ranges the outer loop has still to sort are the one at hand and
    those on the stack.  Two entries of the array are out of order only
    inside one of them. *)
Definition ranges (stack : list (nat * nat * Z)) : list (nat * nat) := map fst stack.

Definition inside (p : nat * nat) (i : nat) : Prop := (p.1 <= i <= p.2)%nat.

Definition ordered_but (v : list float64) (a : list nat) (P : list (nat * nat)) : Prop :=
  ∀ i j : nat, (i < j)%nat → (j < length a)%nat →
    npy_le (v !!! (a !!! i)) (v !!! (a !!! j)) ∨ ∃ p, p ∈ P ∧ inside p i ∧ inside p j.

Definition well_formed (a : list nat) (P : list (nat * nat)) : Prop :=
  Forall (λ p, (p.1 <= p.2 < length a)%nat) P.

Fixpoint apart (P : list (nat * nat)) : Prop :=
  match P with
  | [] => True
  | p :: P' => Forall (λ q, (p.2 < q.1)%nat ∨ (q.2 < p.1)%nat) P' ∧ apart P'
  end.

(** What the outer loop has left to do: it takes a round to split a range
    and a round to finish one. *)
Definition cost (P : list (nat * nat)) : nat :=
  sum_list (map (λ p, 2 * (p.2 - p.1) + 1)%nat P).

(** ** Thresholds *)



(** * Properties *)

(** ** Filtering *)

Lemma filtered_df_cons (r : Row) (df : list Row) (p : FilterParams) :
  filtered_df (r :: df) p =
  if bool_decide (Country r ∈ countries p)
     && ((fst (years p) <=? Year r) && (Year r <=? snd (years p)))
     && bool_decide (Transport_Type r ∈ transport_types p)
     && Qle_bool (min_satisfaction p) (Customer_Satisfaction_Score r)
  then r :: filtered_df df p
  else filtered_df df p.
Proof. reflexivity. Qed.

Lemma matches_decide (p : FilterParams) (r : Row) :
  bool_decide (Country r ∈ countries p)
  && ((fst (years p) <=? Year r) && (Year r <=? snd (years p)))
  && bool_decide (Transport_Type r ∈ transport_types p)
  && Qle_bool (min_satisfaction p) (Customer_Satisfaction_Score r) = true
  ↔ matches p r.
Proof.
  unfold matches.
  rewrite !andb_true_iff, !bool_decide_eq_true, !Z.leb_le, Qle_bool_iff.
  tauto.
Qed.

Lemma filtered_df_selects (df : list Row) (p : FilterParams) :
  selects (matches p) df (filtered_df df p).
Proof.
  induction df as [|r df IH]; [constructor|].
  rewrite filtered_df_cons.
  destruct (_ && _) eqn:E.
  - apply selects_keep; [by apply matches_decide | exact IH].
  - apply selects_drop; [|exact IH].
    intros M. apply matches_decide in M. congruence.
Qed.

Lemma selects_elem_of {A : Type} (P : A → Prop) (l l' : list A) :
  selects P l l' → ∀ x, x ∈ l' ↔ x ∈ l ∧ P x.
Proof.
  induction 1 as [|x l l' Px _ IH|x l l' Px _ IH]; intros y.
  - split; [intros H | intros [H _]]; inversion H.
  - rewrite !elem_of_cons, IH. intuition congruence.
  - rewrite elem_of_cons, IH. intuition congruence.
Qed.

Lemma selects_sublist {A : Type} (P : A → Prop) (l l' : list A) :
  selects P l l' → l' `sublist_of` l.
Proof. induction 1; by constructor. Qed.

Lemma selects_none {A : Type} (P : A → Prop) (l l' : list A) :
  selects P l l' → (∀ x, ¬ P x) → l' = [].
Proof.
  induction 1 as [|x l l' Px _ IH|x l l' Px _ IH]; intros N; auto.
  by destruct (N x).
Qed.

(** C1.  The filtered table keeps exactly the rows of the raw table that
    meet the four conditions (country selected, year within the inclusive
    range, transport type selected, satisfaction at least the minimum),
    as often as they occur and in the raw table's order; with no country
    or no transport type selected it is empty. *)
Theorem filtered_df_exact (df : list Row) (p : FilterParams) :
  selects (matches p) df (filtered_df df p)
  ∧ (∀ r, r ∈ filtered_df df p ↔ r ∈ df ∧ matches p r)
  ∧ filtered_df df p `sublist_of` df
  ∧ (countries p = [] ∨ transport_types p = [] → filtered_df df p = []).
Proof.
  pose proof (filtered_df_selects df p) as S.
  split_and!; eauto using selects_elem_of, selects_sublist.
  intros E. apply (selects_none _ _ _ S).
  intros r (Hc & _ & Ht & _).
  destruct E as [E|E]; rewrite E in *; by eapply not_elem_of_nil.
Qed.

(** ** Division by zero *)

Lemma Qsign_spec (q : Q) :
  match Qsign q with
  | Lt => (0 < q)%Q
  | Eq => (q == 0)%Q
  | Gt => (q < 0)%Q
  end.
Proof.
  unfold Qsign, Qlt, Qeq. destruct q as [[|n|n] d]; simpl; lia.
Qed.

Lemma inf_of_not_finite (c : comparison) : is_finite (inf_of c) = false.
Proof. by destruct c. Qed.

Lemma feq_zero (x : float64) :
  feq x (Num 0) = true ↔ ∃ q, x = Num q ∧ (q == 0)%Q.
Proof.
  destruct x as [q| | |]; simpl; try (split; [done | by intros (? & ? & ?)]).
  rewrite Qeq_bool_iff. split; [eauto | by intros (? & [= <-] & ?)].
Qed.

(** A zero divisor never gives a finite quotient. *)
Lemma fdiv_zero_divisor (x y : float64) :
  feq y (Num 0) = true → is_finite (fdiv x y) = false.
Proof.
  intros (b & -> & Hb)%feq_zero.
  apply Qeq_bool_iff in Hb.
  destruct x as [a| | |]; simpl; rewrite ?Hb; try done.
  - apply inf_of_not_finite.
  - by destruct (Qsign b).
  - by destruct (Qsign b).
Qed.

Lemma fdiv_finite (a b : Q) :
  ¬ (b == 0)%Q → fdiv (Num a) (Num b) = Num (a / b).
Proof.
  intros Hb. simpl. destruct (Qeq_bool b 0) eqn:E; [|done].
  by apply Qeq_bool_iff in E.
Qed.

Lemma fdiv_by_zero (a b : Q) :
  (b == 0)%Q → fdiv (Num a) (Num b) = inf_of (Qsign a).
Proof. intros Hb. simpl. apply Qeq_bool_iff in Hb. by rewrite Hb. Qed.

Lemma fmul_inf_100 (c : comparison) : fmul (inf_of c) (Num 100) = inf_of c.
Proof. by destruct c. Qed.

(** ** Growth rate *)

(** C3 (as the script computes it).  The growth rate is 0 when the two
    ends of the year range coincide.  Otherwise, with [U0] and [U1] the
    usage summed over the filtered rows of the first and of the last year,
    it is [(U1 - U0) / U0 * 100] when [U0] is not zero; when [U0] is zero
    it is not a finite number: NaN when [U1] is zero too, plus infinity
    when [U1] is positive, minus infinity when it is negative. *)
Theorem growth_rate_cases (fd : list Row) (ys : Z * Z) :
  let U0 := usage_in_year fd (fst ys) in
  let U1 := usage_in_year fd (snd ys) in
  (fst ys = snd ys → growth_rate fd ys = Num 0)
  ∧ (fst ys ≠ snd ys → ¬ (U0 == 0)%Q →
       growth_rate fd ys = Num ((U1 - U0) / U0 * 100))
  ∧ (fst ys ≠ snd ys → (U0 == 0)%Q →
       is_finite (growth_rate fd ys) = false
       ∧ ((U1 == 0)%Q → growth_rate fd ys = NaN)
       ∧ ((0 < U1)%Q → growth_rate fd ys = PInf)
       ∧ ((U1 < 0)%Q → growth_rate fd ys = NInf)).
Proof.
  intros U0 U1. unfold growth_rate. fold U0 U1.
  destruct (Z.eqb_spec (snd ys) (fst ys)) as [E|E]; simpl negb; cbv iota.
  { split_and!; [done | intros N; by destruct N | intros N; by destruct N]. }
  split_and!; [intros E'; by destruct E | intros _ H0 | intros _ H0].
  - by rewrite fdiv_finite.
  - rewrite (fdiv_by_zero _ _ H0), fmul_inf_100.
    pose proof (Qsign_spec (U1 - U0)) as S.
    split; [apply inf_of_not_finite|].
    destruct (Qsign (U1 - U0)); simpl; split_and!; intros H1; try done; lra.
Qed.

(** The usage of a year is summed over the filtered rows of that year. *)
Lemma getitem_eq_int (fd : list Row) (y : Z) :
  getitem_mask fd (eq_int (map Year fd) y) = filter (λ r, Year r = y) fd.
Proof.
  induction fd as [|r fd IH]; [done|]. simpl. rewrite filter_cons.
  fold (eq_int (map Year fd) y). rewrite IH.
  destruct (Z.eqb_spec (Year r) y) as [E|N].
  - by rewrite decide_True.
  - by rewrite decide_False.
Qed.

(** C3 as stated fails: all usage of the first year filtered away, the
    script's growth rate is plus infinity, not 0. *)
Lemma growth_rate_zero_start_counterexample :
  let table := [ mkRow (Some "A") 2020 (Some "Bus") 100 (45 # 10) 1 50;
                 mkRow (Some "B") 2021 (Some "Rail") 150 (46 # 10) (11 # 10) 52 ] in
  let p := mkParams [Some "B"] (2020, 2021) [Some "Bus"; Some "Rail"] 0 in
  let fd := filtered_df table p in
  fd ≠ []
  ∧ fst (years p) ≠ snd (years p)
  ∧ (usage_in_year fd (fst (years p)) == 0)%Q
  ∧ growth_rate fd (years p) = PInf
  ∧ growth_rate fd (years p) ≠ Num 0.
Proof. by vm_compute. Qed.

(** ** Groups *)

Lemma elem_of_unique {A : Type} `{EqDecision A} (col : list A) (x : A) :
  x ∈ unique col ↔ x ∈ col.
Proof. unfold unique. by rewrite elem_of_reverse, elem_of_remove_dups, elem_of_reverse. Qed.

Lemma NoDup_unique {A : Type} `{EqDecision A} (col : list A) : NoDup (unique col).
Proof. unfold unique. rewrite reverse_Permutation. apply NoDup_remove_dups. Qed.

Lemma length_unique {A : Type} `{EqDecision A} (col : list A) :
  length (unique col) = length (remove_dups col).
Proof.
  apply Permutation_length, NoDup_Permutation.
  - apply NoDup_unique.
  - apply NoDup_remove_dups.
  - intros x. by rewrite elem_of_unique, elem_of_remove_dups.
Qed.

Section Groups.
Context {A K : Type} `{EqDecision K} (R : relation K) `{RelDecision K K R}.
Context (key : A → option K).

Lemma groupby_keys (rows : list A) :
  map fst (groupby R key rows) = merge_sort R (unique (omap key rows)).
Proof.
  unfold groupby. rewrite map_map. simpl. apply map_id.
Qed.

Lemma groupby_keys_perm (rows : list A) :
  map fst (groupby R key rows) ≡ₚ unique (omap key rows).
Proof. rewrite groupby_keys. apply merge_sort_Permutation. Qed.

Lemma length_groupby (rows : list A) :
  length (groupby R key rows) = length (remove_dups (omap key rows)).
Proof.
  rewrite <- length_unique, <- (Permutation_length (groupby_keys_perm rows)).
  by rewrite length_map.
Qed.

(** A group holds the rows with its key, in table order, and has one. *)
Lemma elem_of_groupby (rows : list A) (g : K * list A) :
  g ∈ groupby R key rows →
  g.2 = filter (λ r, key r = Some g.1) rows ∧ Some g.1 ∈ map key rows ∧ g.2 ≠ [].
Proof.
  unfold groupby. intros (k & -> & Hk)%list_elem_of_fmap. simpl.
  rewrite merge_sort_Permutation, elem_of_unique in Hk.
  apply list_elem_of_omap in Hk as (r & Hr & Hk).
  split_and!; [done | |].
  - apply list_elem_of_fmap. by exists r.
  - intros E. eapply (not_elem_of_nil r). rewrite <- E.
    by apply list_elem_of_filter.
Qed.


End Groups.

(** ** Means *)

Lemma count_nonzero {A : Type} (col : list A) : col ≠ [] → ¬ (count col == 0)%Q.
Proof.
  intros N. unfold count, Qeq. simpl. destruct col; [done|]. simpl length. lia.
Qed.

Lemma mean_nonempty (col : list Q) :
  col ≠ [] → mean col = Num (sum col / count col).
Proof. intros N. unfold mean. by rewrite fdiv_finite by by apply count_nonzero. Qed.

Lemma round2_zero (x : float64) :
  feq x (Num 0) = true → feq (round2 x) (Num 0) = true.
Proof.
  intros (q & -> & Hq)%feq_zero. simpl.
  assert (rint (q * 100) = 0) as ->; [|done].
  unfold rint.
  assert (Qfloor (q * 100) = 0) as ->.
  { transitivity (Qfloor 0); [|done]. apply Qfloor_comp. lra. }
  assert ((q * 100 - inject_Z 0 ?= 1 # 2)%Q = Lt) as ->; [|done].
  rewrite <- Qlt_alt. unfold inject_Z. lra.
Qed.

(** ** Ratios with a zero denominator *)

(** C4 (as the script computes them).  No ratio is reported as
    unavailable.  A zero denominator gives a quotient that is not finite
    (an infinity or NaN), in every ratio alike: the efficiency score when
    the average emissions are zero, usage per urban percent when the
    group's average urbanization is zero, as aggregated or as shown after
    rounding to 2 decimals, and satisfaction efficiency when the group's
    average emissions are. *)
Theorem zero_denominator_ratios (fd : list Row) :
  (feq (avg_emissions fd) (Num 0) = true → is_finite (efficiency_score fd) = false)
  ∧ (∀ a, a ∈ aggregated fd →
       let d := add_ratios (round_row a) in
       d ∈ display_df fd
       ∧ (feq (a_Avg_Urbanization a) (Num 0) = true ∨ feq (Avg_Urbanization d) (Num 0) = true →
            is_finite (Usage_per_Urban_pct d) = false)
       ∧ (feq (a_Avg_CO2_Emissions a) (Num 0) = true ∨ feq (Avg_CO2_Emissions d) (Num 0) = true →
            is_finite (Satisfaction_Efficiency d) = false)).
Proof.
  split; [apply fdiv_zero_divisor|].
  intros a Ha d. split_and!.
  - unfold display_df. by do 2 apply list_elem_of_fmap_2.
  - intros Z. apply fdiv_zero_divisor. destruct Z as [Z|Z]; [by apply round2_zero | done].
  - intros Z. apply fdiv_zero_divisor. destruct Z as [Z|Z]; [by apply round2_zero | done].
Qed.

(** C4 as stated fails: with emissions of zero the efficiency score is
    plus infinity and the page shows it as [inf]; the table's
    satisfaction efficiency is plus infinity too. *)
Lemma zero_emissions_counterexample :
  let table := [ mkRow (Some "A") 2020 (Some "Bus") 100 (45 # 10) 0 50;
                 mkRow (Some "A") 2021 (Some "Bus") 150 (46 # 10) 0 52 ] in
  let p := mkParams [Some "A"] (2020, 2021) [Some "Bus"; Some "Rail"] 0 in
  let fd := filtered_df table p in
  fd ≠ []
  ∧ feq (avg_emissions fd) (Num 0) = true
  ∧ efficiency_score fd = PInf
  ∧ Metric "Efficiency Score" "inf" None
      ∈ page (main pandas_indexer table p "20250101" empty_world).2
  ∧ map Satisfaction_Efficiency (display_df fd) = [PInf].
Proof.
  vm_compute. split_and!; try done.
  do 13 apply list_elem_of_further. apply list_elem_of_here.
Qed.

(** ** The detailed table *)

Lemma elem_of_aggregated (fd : list Row) (a : Aggregates) :
  a ∈ aggregated fd →
  let rows := filter (λ r, key_of r = Some (a_Country a, a_Transport_Type a)) fd in
  rows ≠ []
  ∧ a_Total_Usage a = Num (sum (map Annual_Usage rows))
  ∧ a_Avg_Annual_Usage a = mean (map Annual_Usage rows)
  ∧ a_Avg_Satisfaction a = mean (map Customer_Satisfaction_Score rows)
  ∧ a_Avg_CO2_Emissions a = mean (map CO2_Emissions_kg_per_passenger rows)
  ∧ a_Avg_Urbanization a = mean (map Urbanization_Rate_pct rows).
Proof.
  unfold aggregated. intros (g & -> & Hg)%list_elem_of_fmap.
  apply elem_of_groupby in Hg as (Hrows & _ & Hne).
  destruct g as [[c t] rows]; simpl in *. subst rows. by split_and!.
Qed.

(** C5 (as the script computes them).  Every row of the detailed table
    belongs to a group of filtered rows (those that have its country and
    its transport type) that is not empty; its aggregate
    columns are the group's sum and means rounded to 2 decimals, and its
    two ratio columns are quotients of those rounded columns.  The ratios
    themselves are not rounded. *)
Theorem display_ratios_from_rounded (fd : list Row) (d : DisplayRow) :
  d ∈ display_df fd →
  let rows := filter (λ r, key_of r = Some (d_Country d, d_Transport_Type d)) fd in
  rows ≠ []
  ∧ Total_Usage d = round2 (Num (sum (map Annual_Usage rows)))
  ∧ Avg_Annual_Usage d = round2 (mean (map Annual_Usage rows))
  ∧ Avg_Satisfaction d = round2 (mean (map Customer_Satisfaction_Score rows))
  ∧ Avg_CO2_Emissions d = round2 (mean (map CO2_Emissions_kg_per_passenger rows))
  ∧ Avg_Urbanization d = round2 (mean (map Urbanization_Rate_pct rows))
  ∧ Usage_per_Urban_pct d
    = fdiv (round2 (Num (sum (map Annual_Usage rows))))
           (round2 (mean (map Urbanization_Rate_pct rows)))
  ∧ Satisfaction_Efficiency d
    = fdiv (round2 (mean (map Customer_Satisfaction_Score rows)))
           (round2 (mean (map CO2_Emissions_kg_per_passenger rows))).
Proof.
  unfold display_df.
  intros (a' & -> & (a & -> & Ha)%list_elem_of_fmap)%list_elem_of_fmap.
  apply elem_of_aggregated in Ha as (Hne & Ht & Hu & Hs & Hc & Hb).
  simpl. rewrite Ht, Hu, Hs, Hc, Hb. by split_and!.
Qed.

Lemma display_ratios_from_rounded_witness :
  let fd := [ mkRow (Some "A") 2020 (Some "Bus") 100 4 3 33;
              mkRow (Some "A") 2021 (Some "Bus") 100 4 3 33;
              mkRow (Some "A") 2022 (Some "Bus") 100 5 3 34 ] in
  ∃ d, d ∈ display_df fd
       ∧ Usage_per_Urban_pct d
         = fdiv (round2 (Num (sum (map Annual_Usage fd))))
                (round2 (mean (map Urbanization_Rate_pct fd))).
Proof.
  intros fd.
  exists (add_ratios (round_row (agg_display ("A", "Bus", fd)))).
  assert (add_ratios (round_row (agg_display ("A", "Bus", fd))) ∈ display_df fd) as H.
  { vm_compute. apply list_elem_of_here. }
  split; [exact H|].
  pose proof (display_ratios_from_rounded fd _ H) as (_ & _ & _ & _ & _ & _ & R & _).
  exact R.
Defined.

(** C5 as stated fails: for three rows of one group with urbanization
    33, 33, 34 and satisfaction 4, 4, 5 the table shows 300 / 33.33 and
    4.33 / 3, while the unrounded aggregates give 300 / (100/3) = 9 and
    (13/3) / 3. *)
Lemma rounded_ratio_counterexample :
  let fd := [ mkRow (Some "A") 2020 (Some "Bus") 100 4 3 33;
              mkRow (Some "A") 2021 (Some "Bus") 100 4 3 33;
              mkRow (Some "A") 2022 (Some "Bus") 100 5 3 34 ] in
  let full_usage_per_urban :=
    fdiv (Num (sum (map Annual_Usage fd))) (mean (map Urbanization_Rate_pct fd)) in
  let full_satisfaction_efficiency :=
    fdiv (mean (map Customer_Satisfaction_Score fd))
         (mean (map CO2_Emissions_kg_per_passenger fd)) in
  ∃ d, display_df fd = [d]
       ∧ feq (Usage_per_Urban_pct d) (Num (30000 # 3333)) = true
       ∧ feq full_usage_per_urban (Num 9) = true
       ∧ feq (Usage_per_Urban_pct d) full_usage_per_urban = false
       ∧ feq (Satisfaction_Efficiency d) (Num (433 # 300)) = true
       ∧ feq full_satisfaction_efficiency (Num (13 # 9)) = true
       ∧ feq (Satisfaction_Efficiency d) full_satisfaction_efficiency = false.
Proof. eexists. split; [by vm_compute|]. by vm_compute. Qed.

(** ** Taking rows by position *)

Lemma take_seq_from {A : Type} (pre rows : list A) :
  take (seq (length pre) (length rows)) (pre ++ rows) = rows.
Proof.
  unfold take. revert pre.
  induction rows as [|x rows IH]; intros pre; [done|].
  simpl. rewrite list_lookup_middle by done. f_equal.
  specialize (IH (pre ++ [x])).
  rewrite length_app, Nat.add_1_r, <- (assoc_L (++)) in IH. exact IH.
Qed.

Lemma take_seq {A : Type} (rows : list A) : take (seq 0 (length rows)) rows = rows.
Proof. apply (take_seq_from [] rows). Qed.

Lemma take_perm {A : Type} (indexer : list nat) (rows : list A) :
  indexer ≡ₚ seq 0 (length rows) → take indexer rows ≡ₚ rows.
Proof. intros P. unfold take. rewrite P. fold (take (seq 0 (length rows)) rows). by rewrite take_seq. Qed.

Lemma take_fmap {A B : Type} (f : A → B) (indexer : list nat) (rows : list A) :
  f <$> take indexer rows = take indexer (f <$> rows).
Proof.
  unfold take. induction indexer as [|i indexer IH]; [done|].
  simpl. rewrite list_lookup_fmap. destruct (rows !! i); simpl; [f_equal|]; exact IH.
Qed.

Lemma take_in_range {A : Type} `{Inhabited A} (indexer : list nat) (rows : list A) :
  Forall (λ i, (i < length rows)%nat) indexer →
  take indexer rows = (λ i, rows !!! i) <$> indexer.
Proof.
  unfold take. induction 1 as [|i indexer Hi _ IH]; [done|].
  simpl. rewrite (list_lookup_lookup_total_lt rows i Hi). simpl. f_equal. exact IH.
Qed.

(** ** The order of a descending sort *)

Lemma desc_le_num (a b : Q) : desc_le (Num a) (Num b) = true ↔ (b <= a)%Q.
Proof. simpl. by rewrite negb_involutive, Qle_bool_iff. Qed.

Global Instance desc_le_transitive : Transitive (λ x y, desc_le x y = true).
Proof.
  intros x y z.
  destruct x as [a| | |], y as [b| | |], z as [c| | |]; try done.
  rewrite !desc_le_num. intros H1 H2. by apply (Qle_trans _ b).
Qed.

Section Sorted_by.
Context (indexer : list float64 → list nat) (sorted : sorts_descending indexer).
Context {A : Type} (by_ : A → float64).

Lemma sort_values_desc_perm (rows : list A) :
  sort_values_desc indexer by_ rows ≡ₚ rows.
Proof.
  unfold sort_values_desc. apply take_perm.
  destruct (sorted (map by_ rows)) as [P _]. by rewrite length_map in P.
Qed.

Lemma sort_values_desc_sorted (rows : list A) :
  StronglySorted (λ x y, desc_le (by_ x) (by_ y) = true)
                 (sort_values_desc indexer by_ rows).
Proof.
  destruct (sorted (map by_ rows)) as [_ S].
  apply Sorted_StronglySorted in S; [|apply _].
  unfold sort_values_desc. rewrite <- take_fmap in S.
  revert S. generalize (take (indexer (map by_ rows)) rows). intros l.
  induction l as [|x l IH]; intros S; [constructor|].
  apply StronglySorted_inv in S as [S F]. constructor; [by apply IH|].
  by apply Forall_fmap in F.
Qed.
End Sorted_by.

Lemma getitem_mask_Forall {A : Type} (P : A → Prop) (rows : list A) (mask : list bool) :
  Forall P rows → Forall P (getitem_mask rows mask).
Proof.
  intros F. revert mask. induction F as [|x rows Hx _ IH]; intros [|[] mask];
    simpl; auto.
Qed.

(** ** The order of the sort *)

Lemma npy_lt_num (a b : Q) : npy_lt (Num a) (Num b) = true ↔ (a < b)%Q.
Proof.
  unfold npy_lt. simpl. rewrite orb_false_r, negb_true_iff.
  rewrite <- not_true_iff_false, Qle_bool_iff. split; [apply Qnot_le_lt | apply Qlt_not_le].
Qed.

Lemma npy_le_num (a b : Q) : npy_le (Num a) (Num b) ↔ (a <= b)%Q.
Proof.
  unfold npy_le. rewrite <- not_true_iff_false, npy_lt_num.
  split; [apply Qnot_lt_le | apply Qle_not_lt].
Qed.

Lemma npy_le_refl (x : float64) : npy_le x x.
Proof. destruct x as [a| | |]; try done. apply npy_le_num, Qle_refl. Qed.

Lemma npy_le_trans (x y z : float64) : npy_le x y → npy_le y z → npy_le x z.
Proof.
  destruct x as [a| | |], y as [b| | |], z as [c| | |]; try done.
  rewrite !npy_le_num. apply Qle_trans.
Qed.

Lemma npy_lt_le (x y : float64) : npy_lt x y = true → npy_le x y.
Proof.
  destruct x as [a| | |], y as [b| | |]; try done.
  rewrite npy_lt_num, npy_le_num. apply Qlt_le_weak.
Qed.

(** ** Exchanging entries *)

Section Swaps.
Local Open Scope nat_scope.

Lemma length_swap (a : list nat) (i j : nat) : length (swap a i j) = length a.
Proof. unfold swap. by rewrite !length_insert. Qed.

Lemma swap_lookup_l (a : list nat) (i j : nat) :
  i < length a → swap a i j !!! i = a !!! j.
Proof. intros Hi. unfold swap. rewrite list_lookup_total_insert_eq; [done|]. by rewrite length_insert. Qed.

Lemma swap_lookup_r (a : list nat) (i j : nat) :
  j < length a → swap a i j !!! j = a !!! i.
Proof.
  intros Hj. unfold swap. destruct (decide (i = j)) as [->|N].
  - rewrite list_lookup_total_insert_eq; [done|]. by rewrite length_insert.
  - rewrite list_lookup_total_insert_ne by done. by rewrite list_lookup_total_insert_eq.
Qed.

Lemma swap_lookup_ne (a : list nat) (i j k : nat) :
  k ≠ i → k ≠ j → swap a i j !!! k = a !!! k.
Proof. intros Hi Hj. unfold swap. by rewrite !list_lookup_total_insert_ne. Qed.

Lemma insert_entry_perm (a : list nat) (j x : nat) :
  j < length a → a !!! j :: <[j := x]> a ≡ₚ x :: a.
Proof.
  revert j. induction a as [|y a IH]; intros [|j] Hj; simpl in *; try lia.
  - apply Permutation_swap.
  - change ((y :: a) !!! S j) with (a !!! j).
    rewrite Permutation_swap, (IH j) by lia. apply Permutation_swap.
Qed.

Lemma swap_perm (a : list nat) (i j : nat) :
  i < length a → j < length a → swap a i j ≡ₚ a.
Proof.
  unfold swap. revert i j.
  induction a as [|x a IH]; intros [|i] [|j] Hi Hj; simpl in *; try lia.
  - done.
  - change ((x :: a) !!! S j) with (a !!! j). change ((x :: a) !!! 0) with x.
    apply insert_entry_perm. lia.
  - change ((x :: a) !!! S i) with (a !!! i). change ((x :: a) !!! 0) with x.
    apply insert_entry_perm. lia.
  - change ((x :: a) !!! S i) with (a !!! i). change ((x :: a) !!! S j) with (a !!! j).
    constructor. apply IH; lia.
Qed.

Lemma swaps_one (l r : nat) (a : list nat) (i j : nat) :
  l <= i <= r → l <= j <= r → swaps l r a (swap a i j).
Proof. intros Hi Hj. apply (swaps_step l r a i j); [done..|constructor]. Qed.

Lemma swaps_trans (l r : nat) (a b c : list nat) :
  swaps l r a b → swaps l r b c → swaps l r a c.
Proof.
  induction 1 as [|a i j b Hi Hj _ IH]; [done|]. intros H'.
  apply (swaps_step l r a i j); auto.
Qed.

Lemma swaps_mono (l r l' r' : nat) (a b : list nat) :
  l' <= l → r <= r' → swaps l r a b → swaps l' r' a b.
Proof.
  intros Hl Hr. induction 1 as [|a i j b Hi Hj _ IH]; [constructor|].
  apply (swaps_step l' r' a i j); [lia | lia | done].
Qed.

Lemma swaps_length (l r : nat) (a b : list nat) : swaps l r a b → length b = length a.
Proof. induction 1 as [|a i j b Hi Hj _ IH]; [done|]. by rewrite <- (length_swap a i j). Qed.

Lemma swaps_perm (l r : nat) (a b : list nat) :
  r < length a → swaps l r a b → b ≡ₚ a.
Proof.
  intros Hr. induction 1 as [|a i j b Hi Hj _ IH]; [done|].
  rewrite IH by (rewrite length_swap; lia). apply swap_perm; lia.
Qed.

Lemma swaps_outside (l r : nat) (a b : list nat) (k : nat) :
  swaps l r a b → k < l ∨ r < k → b !!! k = a !!! k.
Proof.
  induction 1 as [|a i j b Hi Hj _ IH]; [done|]. intros Hk.
  rewrite IH by done. apply swap_lookup_ne; lia.
Qed.

Lemma swaps_inside (l r : nat) (a b : list nat) (k : nat) :
  r < length a → swaps l r a b → l <= k <= r →
  ∃ k', l <= k' <= r ∧ b !!! k = a !!! k'.
Proof.
  intros Hr S. revert k. induction S as [|a i j b Hi Hj _ IH]; intros k Hk; [by exists k|].
  destruct (IH ltac:(rewrite length_swap; lia) k Hk) as (k' & Hk' & ->).
  destruct (decide (k' = i)) as [->|Ni].
  - exists j. split; [done|]. apply swap_lookup_l. lia.
  - destruct (decide (k' = j)) as [->|Nj].
    + exists i. split; [done|]. apply swap_lookup_r. lia.
    + exists k'. split; [done|]. by apply swap_lookup_ne.
Qed.

End Swaps.

(** ** The introsort *)

Section Sorting.
Local Open Scope nat_scope.
Variable v : list float64.

Local Abbreviation K a i := (v !!! (a !!! i)).

Lemma scan_up_spec (vp : float64) (a : list nat) (fuel i s : nat) :
  i <= s → npy_lt (K a s) vp = false → s - i < fuel →
  let i' := scan_up fuel v vp a i in
  i <= i' <= s ∧ npy_lt (K a i') vp = false
  ∧ ∀ k, i <= k < i' → npy_lt (K a k) vp = true.
Proof.
  revert i. induction fuel as [|fuel IH]; intros i Hi Hs Hf; [lia|].
  simpl. destruct (npy_lt (K a i) vp) eqn:E.
  - assert (i ≠ s) by congruence.
    destruct (IH (S i)) as (H1 & H2 & H3); [lia | done | lia |].
    split_and!; [lia | lia | done |].
    intros k Hk. destruct (decide (k = i)) as [->|]; [done|]. apply H3. lia.
  - split_and!; [lia | lia | done |]. intros; lia.
Qed.

Lemma scan_down_spec (vp : float64) (a : list nat) (fuel j s : nat) :
  s <= j → npy_lt vp (K a s) = false → j - s < fuel →
  let j' := scan_down fuel v vp a j in
  s <= j' <= j ∧ npy_lt vp (K a j') = false
  ∧ ∀ k, j' < k <= j → npy_lt vp (K a k) = true.
Proof.
  revert j. induction fuel as [|fuel IH]; intros j Hj Hs Hf; [lia|].
  simpl. destruct (npy_lt vp (K a j)) eqn:E.
  - assert (j ≠ s) by congruence.
    destruct (IH (pred j)) as (H1 & H2 & H3); [lia | done | lia |].
    split_and!; [lia | lia | done |].
    intros k Hk. destruct (decide (k = j)) as [->|]; [done|]. apply H3. lia.
  - split_and!; [lia | lia | done |]. intros; lia.
Qed.

(** The partitioning loop, entered with everything up to [pi] at most the
    pivot and everything from [pj] to [pe] at least the pivot. *)
Lemma partition_loop_spec (vp : float64) (pl pe fuel : nat) (a : list nat)
    (pi pj : nat) (a' : list nat) (pi' : nat) :
  pl <= pi → pi < pj → pj <= pe → pe < length a → pj - pi <= fuel →
  (∀ k, pl <= k <= pi → npy_le (K a k) vp) →
  (∀ k, pj <= k <= pe → npy_le vp (K a k)) →
  partition_loop fuel v vp a pi pj = (a', pi') →
  swaps (S pi) (pj - 1) a a' ∧ pi < pi' <= pj
  ∧ (∀ k, pl <= k < pi' → npy_le (K a' k) vp)
  ∧ (∀ k, pi' <= k <= pe → npy_le vp (K a' k)).
Proof.
  revert a pi pj. induction fuel as [|fuel IH]; intros a pi pj Hl Hij Hje He Hf L R; [lia|].
  simpl.
  destruct (scan_up_spec vp a (length a) (S pi) pj) as (U1 & U2 & U3);
    [lia | apply (R pj); lia | lia |].
  destruct (scan_down_spec vp a (length a) (pred pj) pi) as (D1 & D2 & D3);
    [lia | apply (L pi); lia | lia |].
  set (i' := scan_up (length a) v vp a (S pi)) in *.
  set (j' := scan_down (length a) v vp a (pred pj)) in *.
  assert (∀ k, pl <= k < i' → npy_le (K a k) vp) as L'.
  { intros k Hk. destruct (decide (k <= pi)); [apply L; lia|].
    apply npy_lt_le, U3. lia. }
  assert (∀ k, j' < k <= pe → npy_le vp (K a k)) as R'.
  { intros k Hk. destruct (decide (pj <= k)); [apply R; lia|].
    apply npy_lt_le, D3. lia. }
  destruct (Nat.leb_spec j' i') as [Hji|Hji].
  - intros [= <- <-]. split_and!; [constructor | lia | lia | done |].
    intros k Hk. destruct (decide (k = i')) as [->|]; [done|]. apply R'. lia.
  - intros E.
    apply IH in E as (S' & Hi' & L'' & R''); [| lia | lia | lia | | lia | |].
    + split_and!; [|lia|lia|done..].
      apply (swaps_step _ _ a i' j'); [lia | lia |].
      eapply swaps_mono; [| |exact S']; lia.
    + rewrite length_swap. lia.
    + intros k Hk. destruct (decide (k = i')) as [->|].
      * rewrite swap_lookup_l by lia. exact D2.
      * rewrite swap_lookup_ne by lia. apply L'. lia.
    + intros k Hk. destruct (decide (k = j')) as [->|].
      * rewrite swap_lookup_r by lia. exact U2.
      * rewrite swap_lookup_ne by lia. apply R'. lia.
Qed.

(** A swap made when the entry at [i] is smaller than the one at [j]. *)
Lemma conditional_swap (a : list nat) (i j : nat) :
  i < length a → j < length a →
  let a' := if npy_lt (K a i) (K a j) then swap a i j else a in
  length a' = length a
  ∧ (∀ l r, l <= i <= r → l <= j <= r → swaps l r a a')
  ∧ npy_le (K a' j) (K a' i)
  ∧ (∀ k, k ≠ i → k ≠ j → a' !!! k = a !!! k)
  ∧ ((K a' i = K a i ∧ K a' j = K a j) ∨ (K a' i = K a j ∧ K a' j = K a i)).
Proof.
  intros Hi Hj. simpl. destruct (npy_lt (K a i) (K a j)) eqn:E.
  - rewrite length_swap, swap_lookup_l, swap_lookup_r by done.
    split_and!; [done | by intros; apply swaps_one | by apply npy_lt_le | | by right].
    intros k ??. by apply swap_lookup_ne.
  - split_and!; [done | by intros; constructor | done | done | by left].
Qed.

(** One partition puts the pivot at [pi], between entries that are at
    most and entries that are at least the pivot. *)
Lemma partition_spec (a : list nat) (pl pr : nat) (a' : list nat) (pi : nat) :
  pl + 2 <= pr → pr < length a → partition v a pl pr = (a', pi) →
  swaps pl pr a a' ∧ pl < pi < pr
  ∧ (∀ k, pl <= k < pi → npy_le (K a' k) (K a' pi))
  ∧ (∀ k, pi < k <= pr → npy_le (K a' pi) (K a' k)).
Proof.
  intros Hlr Hr. unfold partition.
  set (pm := pl + (pr - pl) / 2).
  assert (pl < pm < pr) as Hm.
  { unfold pm. pose proof (Nat.div_lt (pr - pl) 2). 
    assert (1 <= (pr - pl) / 2) by (apply (Nat.div_le_lower_bound _ 2 1); lia). lia. }
  cbv zeta beta.
  destruct (conditional_swap a pm pl) as (N1 & S1 & O1 & F1 & V1); [lia..|].
  set (a1 := if npy_lt (K a pm) (K a pl) then swap a pm pl else a) in *.
  destruct (conditional_swap a1 pr pm) as (N2 & S2 & O2 & F2 & V2); [lia..|].
  set (a2 := if npy_lt (K a1 pr) (K a1 pm) then swap a1 pr pm else a1) in *.
  destruct (conditional_swap a2 pm pl) as (N3 & S3 & O3 & F3 & V3); [lia..|].
  set (a3 := if npy_lt (K a2 pm) (K a2 pl) then swap a2 pm pl else a2) in *.
  assert (npy_le (K a2 pl) (K a2 pr)) as Hlo.
  { rewrite (F2 pl) by lia.
    destruct V2 as [[_ E]|[-> _]]; [|done].
    apply (npy_le_trans _ (K a1 pm)); [done|]. by rewrite <- E. }
  assert (npy_le (K a3 pm) (K a3 pr)) as O4.
  { rewrite (F3 pr) by lia. by destruct V3 as [[-> _]|[-> _]]. }
  clearbody a3. clear V1 V2 V3 O1 O2 Hlo F1 F2 F3.
  assert (swaps pl pr a a3) as S03.
  { eapply swaps_trans; [apply S1; lia|].
    eapply swaps_trans; [apply S2; lia|]. apply S3; lia. }
  assert (length a3 = length a) as N03 by congruence.
  clear S1 S2 S3 N1 N2 N3. clearbody a1 a2. clear a1 a2.
  set (vp := K a3 pm) in *.
  set (a4 := swap a3 pm (pr - 1)).
  assert (length a4 = length a) as N4 by (unfold a4; by rewrite length_swap).
  assert (K a4 (pr - 1) = vp) as P4.
  { unfold a4. by rewrite swap_lookup_r by lia. }
  assert (K a4 pl = K a3 pl) as L4.
  { unfold a4. by rewrite swap_lookup_ne by lia. }
  assert (K a4 pr = K a3 pr) as R4.
  { unfold a4. by rewrite swap_lookup_ne by lia. }
  destruct (partition_loop (length a4) v vp a4 pl (pr - 1)) as [a5 pi'] eqn:E.
  intros [= <- <-].
  apply (partition_loop_spec vp pl (pr - 1)) in E as (S5 & Hpi & L5 & R5);
    [| lia | lia | lia | lia | lia | |].
  2:{ intros k Hk. assert (k = pl) as -> by lia. by rewrite L4. }
  2:{ intros k Hk. assert (k = pr - 1) as -> by lia. rewrite P4. apply npy_le_refl. }
  assert (length a5 = length a) as N5 by (rewrite (swaps_length _ _ _ _ S5); done).
  assert (K a5 (pr - 1) = vp) as P5.
  { rewrite (swaps_outside _ _ _ _ (pr - 1) S5) by lia. exact P4. }
  assert (K a5 pr = K a3 pr) as R5'.
  { rewrite (swaps_outside _ _ _ _ pr S5) by lia. exact R4. }
  split_and!; [|lia|lia| |].
  - eapply swaps_trans; [exact S03|].
    eapply swaps_trans; [apply (swaps_one pl pr a3 pm (pr - 1)); lia|].
    fold a4. eapply swaps_trans; [eapply swaps_mono; [| |exact S5]; lia|].
    apply swaps_one; lia.
  - intros k Hk. rewrite swap_lookup_l by lia. rewrite P5.
    rewrite swap_lookup_ne by lia. apply L5. lia.
  - intros k Hk. rewrite swap_lookup_l by lia. rewrite P5.
    destruct (decide (k = pr - 1)) as [->|].
    + rewrite swap_lookup_r by lia. apply R5. lia.
    + rewrite swap_lookup_ne by lia.
      destruct (decide (k = pr)) as [->|]; [by rewrite R5'|]. apply R5. lia.
Qed.

(** The insertion sort. *)
Lemma sift_spec (pl pi vi fuel : nat) (a : list nat) (pj : nat) :
  pl <= pj → pj <= pi → pi < length a → pj - pl <= fuel →
  let b := <[pj := vi]> a in
  (∀ i j, pl <= i → i < j → j <= pi → j ≠ pj → npy_le (K b i) (K b j)) →
  let a' := sift fuel v a pl pj vi in
  swaps pl pi b a' ∧ sorted_on v a' pl pi.
Proof.
  revert a pj. induction fuel as [|fuel IH]; intros a pj Hl Hj Hi Hf b Inv.
  { simpl. split; [constructor|]. intros i j ???. apply Inv; lia. }
  simpl.
  assert (b !!! pj = vi) as Bj by (apply list_lookup_total_insert_eq; lia).
  assert (∀ k, k ≠ pj → b !!! k = a !!! k) as Bk.
  { intros k Hk. unfold b. by rewrite list_lookup_total_insert_ne. }
  assert (length b = length a) as Nb by apply length_insert.
  destruct (Nat.ltb_spec pl pj) as [Hlt|Hge]; simpl;
    [destruct (npy_lt (v !!! vi) (K a (pj - 1))) eqn:E|].
  - set (a1 := <[pj := a !!! (pj - 1)]> a).
    assert (<[pj - 1 := vi]> a1 = swap b (pj - 1) pj) as Eb.
    { unfold swap. rewrite Bj, Bk by lia. unfold b. by rewrite list_insert_insert_eq. }
    destruct (IH a1 (pj - 1)) as [S' O']; [lia | lia | | lia | |].
    { unfold a1. rewrite length_insert. lia. }
    { rewrite Eb. intros i j Hi1 Hij Hj1 Hne.
      destruct (decide (j = pj)) as [->|Nj].
      - rewrite swap_lookup_r by lia.
        destruct (decide (i = pj - 1)) as [->|Ni].
        + rewrite swap_lookup_l, Bj by lia. rewrite Bk by lia. by apply npy_lt_le.
        + rewrite swap_lookup_ne by lia. apply Inv; lia.
      - rewrite (swap_lookup_ne _ _ _ j) by lia.
        destruct (decide (i = pj)) as [->|Ni].
        + rewrite swap_lookup_r by lia. apply Inv; lia.
        + destruct (decide (i = pj - 1)) as [->|Ni'].
          * rewrite swap_lookup_l by lia. apply Inv; lia.
          * rewrite swap_lookup_ne by lia. apply Inv; lia. }
    split; [|exact O'].
    apply (swaps_step _ _ b (pj - 1) pj); [lia | lia |]. by rewrite <- Eb.
  - split; [constructor|]. fold b. intros i j Hi1 Hij Hj1.
    destruct (decide (j = pj)) as [->|Nj]; [|by apply Inv].
    rewrite Bj.
    assert (npy_le (K b (pj - 1)) (v !!! vi)) as Hlast by (by rewrite Bk by lia).
    destruct (decide (i = pj - 1)) as [->|Ni]; [done|].
    apply (npy_le_trans _ (K b (pj - 1))); [|done]. apply Inv; lia.
  - split; [constructor|]. fold b. intros i j Hi1 Hij Hj1. apply Inv; lia.
Qed.

Lemma insertion_from (pl cnt : nat) (a : list nat) (m : nat) :
  pl <= m → m + cnt < length a → sorted_on v a pl m →
  let a' := foldl (λ a pi, sift (length a) v a pl pi (a !!! pi)) a (seq (S m) cnt) in
  swaps pl (m + cnt) a a' ∧ sorted_on v a' pl (m + cnt).
Proof.
  revert a m. induction cnt as [|cnt IH]; intros a m Hm Hlen O.
  { simpl. rewrite Nat.add_0_r. split; [constructor | done]. }
  simpl.
  destruct (sift_spec pl (S m) (a !!! S m) (length a) a (S m)) as [S1 O1];
    [lia | lia | lia | lia | |].
  { rewrite list_insert_id' by (intros; by apply list_lookup_lookup_total_lt).
    intros i j ????. apply O; lia. }
  rewrite list_insert_id' in S1 by (intros; by apply list_lookup_lookup_total_lt).
  set (a1 := sift (length a) v a pl (S m) (a !!! S m)) in *.
  assert (length a1 = length a) as N1 by apply (swaps_length _ _ _ _ S1).
  destruct (IH a1 (S m)) as [S2 O2]; [lia | lia | done |].
  replace (m + S cnt) with (S m + cnt) by lia.
  split; [|done].
  eapply swaps_trans; [|exact S2]. eapply swaps_mono; [| |exact S1]; lia.
Qed.

Lemma insertion_spec (a : list nat) (pl pr : nat) :
  pl <= pr → pr < length a →
  swaps pl pr a (insertion v a pl pr) ∧ sorted_on v (insertion v a pl pr) pl pr.
Proof.
  intros Hlr Hr. unfold insertion.
  destruct (insertion_from pl (pr - pl) a pl) as [S O]; [lia | lia | |].
  { intros i j ???. lia. }
  by replace (pl + (pr - pl)) with pr in * by lia.
Qed.

(** The heapsort.  Entry [k] of the heap is the array's entry
    [pl + k - 1]; the children of entry [p] are the entries [2 * p] and
    [2 * p + 1]. *)
Lemma sift_down_spec (pl n lo tmp fuel : nat) (a : list nat) (i : nat) :
  1 <= lo → lo <= i → i <= n → pl + n <= length a → n < fuel + i →
  let b := <[pl + i - 1 := tmp]> a in
  (∀ p c, lo <= p → p ≠ i → c = 2 * p ∨ c = 2 * p + 1 → c <= n →
     npy_le (K b (pl + c - 1)) (K b (pl + p - 1))) →
  (∀ p c, lo <= p → i = 2 * p ∨ i = 2 * p + 1 → c = 2 * i ∨ c = 2 * i + 1 → c <= n →
     npy_le (K b (pl + c - 1)) (K b (pl + p - 1))) →
  let a' := sift_down fuel v a pl n i tmp in
  swaps (pl + i - 1) (pl + n - 1) b a' ∧ heap_on v a' pl lo n.
Proof.
  revert a i. induction fuel as [|fuel IH]; intros a i Hlo Hi Hn Hlen Hf b H1 H3; [lia|].
  simpl.
  assert (b !!! (pl + i - 1) = tmp) as Bi by (apply list_lookup_total_insert_eq; lia).
  assert (∀ k, k ≠ i → 1 <= k → b !!! (pl + k - 1) = a !!! (pl + k - 1)) as Bk.
  { intros k Hk Hk1. unfold b. rewrite list_lookup_total_insert_ne; [done|lia]. }
  assert (length b = length a) as Nb by apply length_insert.
  destruct (Nat.leb_spec (i + (i + 0)) n) as [Hj0|Hj0].
  2:{ split; [constructor|]. fold b. intros p c Hp Hc Hcn.
      destruct (decide (p = i)) as [->|]; [lia|]. by apply H1. }
  set (j := if (i + (i + 0) <? n)
               && npy_lt (K a (pl + (i + (i + 0)) - 1)) (K a (pl + (i + (i + 0) + 1) - 1))
            then i + (i + 0) + 1 else i + (i + 0)).
  assert ((j = 2 * i ∨ j = 2 * i + 1) ∧ j <= n
          ∧ ∀ c, c = 2 * i ∨ c = 2 * i + 1 → c <= n →
              npy_le (K b (pl + c - 1)) (K b (pl + j - 1))) as (Hj & Hjn & Big).
  { unfold j. destruct (Nat.ltb_spec (i + (i + 0)) n) as [Hlt|Hge]; simpl.
    - destruct (npy_lt _ _) eqn:E.
      + split_and!; [lia | lia |]. intros c [-> | ->] Hc.
        * rewrite !Bk by lia. apply npy_lt_le.
          by replace (pl + 2 * i - 1) with (pl + (i + (i + 0)) - 1) by lia.
        * replace (i + (i + 0) + 1) with (2 * i + 1) by lia. apply npy_le_refl.
      + split_and!; [lia | lia |]. intros c [-> | ->] Hc.
        * replace (i + (i + 0)) with (2 * i) by lia. apply npy_le_refl.
        * rewrite !Bk by lia. unfold npy_le.
          by replace (pl + (2 * i + 1) - 1) with (pl + (i + (i + 0) + 1) - 1) by lia.
    - split_and!; [lia | lia |]. intros c [-> | ->] Hc; [|lia].
      replace (i + (i + 0)) with (2 * i) by lia. apply npy_le_refl. }
  clearbody j.
  destruct (npy_lt (v !!! tmp) (K a (pl + j - 1))) eqn:E.
  - set (a1 := <[pl + i - 1 := a !!! (pl + j - 1)]> a).
    assert (<[pl + j - 1 := tmp]> a1 = swap b (pl + i - 1) (pl + j - 1)) as Eb.
    { unfold swap. rewrite Bi, Bk by lia. unfold a1, b.
      rewrite (list_insert_insert_ne _ (pl + i - 1) (pl + j - 1)) by lia.
      by rewrite list_insert_insert_eq. }
    destruct (IH a1 j) as [S' O']; [lia | lia | lia | | lia | | |].
    { unfold a1. rewrite length_insert. lia. }
    { rewrite Eb. intros p c Hp Hpj Hc Hcn.
      destruct (decide (p = i)) as [->|Npi].
      - rewrite swap_lookup_l by lia.
        destruct (decide (c = j)) as [->|Ncj].
        + rewrite swap_lookup_r, Bi by lia. rewrite Bk by lia. by apply npy_lt_le.
        + rewrite swap_lookup_ne by lia. by apply Big.
      - rewrite (swap_lookup_ne _ _ _ (pl + p - 1)) by lia.
        destruct (decide (c = i)) as [->|Nci].
        + rewrite swap_lookup_l by lia. by apply (H3 p j).
        + assert (c ≠ j) by lia. rewrite swap_lookup_ne by lia. by apply H1. }
    { rewrite Eb. intros p c Hp Hpj Hc Hcn.
      assert (p = i) as -> by lia.
      rewrite swap_lookup_l by lia. rewrite swap_lookup_ne by lia.
      apply H1; [lia | lia | done | done]. }
    split; [|exact O'].
    apply (swaps_step _ _ b (pl + i - 1) (pl + j - 1)); [lia | lia |].
    rewrite <- Eb. eapply swaps_mono; [| |exact S']; lia.
  - split; [constructor|]. fold b. intros p c Hp Hc Hcn.
    destruct (decide (p = i)) as [->|]; [|by apply H1].
    rewrite Bi. apply (npy_le_trans _ (K b (pl + j - 1))); [by apply Big|].
    by rewrite Bk by lia.
Qed.

Lemma heap_root_largest (a : list nat) (pl n c : nat) :
  heap_on v a pl 1 n → 1 <= c <= n → npy_le (K a (pl + c - 1)) (K a (pl + 1 - 1)).
Proof.
  intros H. induction (lt_wf c) as [c _ IH]. intros Hc.
  destruct (decide (c = 1)) as [->|N]; [apply npy_le_refl|].
  assert (∃ p, 1 <= p < c ∧ (c = 2 * p ∨ c = 2 * p + 1)) as (p & Hp & Hpc).
  { exists (c / 2). pose proof (Nat.div_mod_eq c 2). 
    pose proof (Nat.mod_upper_bound c 2). lia. }
  apply (npy_le_trans _ (K a (pl + p - 1))).
  - apply (H p c); lia.
  - apply IH; lia.
Qed.

Lemma heapify_from (pl n m : nat) (a : list nat) :
  m <= n / 2 → pl + n <= length a → heap_on v a pl (S m) n →
  let a' := foldl (λ a l, sift_down n v a pl n l (a !!! (pl + l - 1))) a
                  (reverse (seq 1 m)) in
  swaps pl (pl + n - 1) a a' ∧ heap_on v a' pl 1 n.
Proof.
  revert a. induction m as [|m IH]; intros a Hm Hlen H.
  { simpl. split; [constructor | done]. }
  rewrite seq_S, reverse_snoc. simpl.
  assert (2 * (n / 2) <= n) as Hhalf.
  { pose proof (Nat.div_mod_eq n 2). lia. }
  destruct (sift_down_spec pl n (S m) (a !!! (pl + S m - 1)) n a (S m)) as [S1 O1];
    [lia | lia | lia | lia | lia | | |].
  { rewrite list_insert_id' by (intros; by apply list_lookup_lookup_total_lt).
    intros p c Hp Hne Hc Hcn. apply (H p c); [lia | done | done]. }
  { intros p c Hp Hpc. lia. }
  rewrite list_insert_id' in S1 by (intros; by apply list_lookup_lookup_total_lt).
  set (a1 := sift_down n v a pl n (S m) (a !!! (pl + S m - 1))) in *.
  assert (length a1 = length a) as N1 by apply (swaps_length _ _ _ _ S1).
  destruct (IH a1) as [S2 O2]; [lia | lia | done |].
  split; [|done].
  eapply swaps_trans; [|exact S2]. eapply swaps_mono; [| |exact S1]; lia.
Qed.

Lemma heapify_spec (a : list nat) (pl n : nat) :
  pl + n <= length a →
  swaps pl (pl + n - 1) a (heapify v a pl n) ∧ heap_on v (heapify v a pl n) pl 1 n.
Proof.
  intros Hlen. apply heapify_from; [done | done |].
  intros p c Hp Hc Hcn. pose proof (Nat.div_mod_eq n 2).
  pose proof (Nat.mod_upper_bound n 2). lia.
Qed.

Lemma extract_from (pl n k : nat) (a : list nat) :
  S k <= n → pl + n <= length a →
  heap_on v a pl 1 (S k) →
  sorted_on v a (pl + S k) (pl + n - 1) →
  (∀ c c', 1 <= c <= S k → S k < c' <= n →
     npy_le (K a (pl + c - 1)) (K a (pl + c' - 1))) →
  let a' := foldl (λ a n,
                     let tmp := a !!! (pl + n - 1) in
                     let a := <[pl + n - 1 := a !!! pl]> a in
                     sift_down n v a pl (n - 1) 1 tmp)
                  a (reverse (seq 2 k)) in
  swaps pl (pl + n - 1) a a' ∧ sorted_on v a' pl (pl + n - 1).
Proof.
  revert a. induction k as [|k IH]; intros a Hk Hlen H O C.
  { simpl. split; [constructor|]. intros i j Hi Hij Hj.
    destruct (decide (i = pl)) as [->|].
    - replace pl with (pl + 1 - 1) at 1 by lia.
      replace j with (pl + (j - pl + 1) - 1) by lia. apply C; lia.
    - apply O; lia. }
  rewrite seq_S, reverse_snoc. simpl foldl.
  replace (2 + k) with (S (S k)) by lia.
  set (m := S (S k)) in *.
  set (b := swap a pl (pl + m - 1)).
  assert (<[pl + 1 - 1 := a !!! (pl + m - 1)]> (<[pl + m - 1 := a !!! pl]> a) = b) as Eb.
  { by replace (pl + 1 - 1) with pl by lia. }
  assert (length b = length a) as Nb by apply length_swap.
  assert (b !!! pl = a !!! (pl + m - 1)) as Bl by (apply swap_lookup_l; lia).
  assert (b !!! (pl + m - 1) = a !!! pl) as Bm by (apply swap_lookup_r; lia).
  assert (∀ c, 1 <= c → c ≠ 1 → c ≠ m → b !!! (pl + c - 1) = a !!! (pl + c - 1)) as Bk.
  { intros c ???. apply swap_lookup_ne; lia. }
  destruct (sift_down_spec pl (m - 1) 1 (a !!! (pl + m - 1)) m
              (<[pl + m - 1 := a !!! pl]> a) 1) as [S1 O1];
    [lia | lia | lia | rewrite length_insert; lia | lia | | |].
  { rewrite Eb. intros p c Hp Hne Hc Hcn. rewrite !Bk by lia. apply (H p c); lia. }
  { intros p c Hp Hpc. lia. }
  rewrite Eb in S1.
  set (a2 := sift_down m v (<[pl + m - 1 := a !!! pl]> a) pl (m - 1) 1 (a !!! (pl + m - 1))) in *.
  replace (m - 1) with (S k) in * by lia.
  assert (length a2 = length a) as N2 by (rewrite (swaps_length _ _ _ _ S1); done).
  assert (∀ i, pl + S k <= i → a2 !!! i = b !!! i) as Out.
  { intros i Hi. apply (swaps_outside _ _ _ _ i S1). lia. }
  destruct (IH a2) as [S2 O2]; [lia | lia | done | | |].
  { intros i j Hi Hij Hj. rewrite !Out by lia.
    destruct (decide (i = pl + S k)) as [->|].
    - replace (pl + S k) with (pl + m - 1) by lia. rewrite Bm.
      replace j with (pl + (j - pl + 1) - 1) by lia. rewrite Bk by lia.
      replace pl with (pl + 1 - 1) at 1 by lia. apply C; lia.
    - replace i with (pl + (i - pl + 1) - 1) by lia.
      replace j with (pl + (j - pl + 1) - 1) by lia. rewrite !Bk by lia.
      replace (pl + (i - pl + 1) - 1) with i by lia.
      replace (pl + (j - pl + 1) - 1) with j by lia.
      apply O; lia. }
  { intros c c' Hc Hc'.
    destruct (swaps_inside (pl + 1 - 1) (pl + S k - 1) b a2 (pl + c - 1))
      as (i0 & Hi0 & ->); [lia | exact S1 | lia |].
    assert (∃ c0, 1 <= c0 <= m ∧ K b i0 = K a (pl + c0 - 1)) as (c0 & Hc0 & ->).
    { destruct (decide (i0 = pl)) as [->|].
      - exists m. split; [lia|]. by rewrite Bl.
      - exists (i0 - pl + 1). split; [lia|].
        rewrite <- Bk by lia. by replace (pl + (i0 - pl + 1) - 1) with i0 by lia. }
    rewrite Out by lia.
    destruct (decide (c' = m)) as [->|].
    - rewrite Bm. replace pl with (pl + 1 - 1) at 2 by lia.
      by apply (heap_root_largest a pl m).
    - rewrite Bk by lia. apply C; lia. }
  split; [|done].
  apply (swaps_step _ _ a pl (pl + m - 1)); [lia | lia |]. fold b.
  eapply swaps_trans; [|exact S2]. eapply swaps_mono; [| |exact S1]; lia.
Qed.

Lemma aheapsort_spec (a : list nat) (pl n : nat) :
  1 <= n → pl + n <= length a →
  swaps pl (pl + n - 1) a (aheapsort v a pl n)
  ∧ sorted_on v (aheapsort v a pl n) pl (pl + n - 1).
Proof.
  intros Hn Hlen. unfold aheapsort, extract_all.
  destruct (heapify_spec a pl n Hlen) as [S1 H1].
  set (a1 := heapify v a pl n) in *.
  assert (length a1 = length a) as N1 by apply (swaps_length _ _ _ _ S1).
  destruct (extract_from pl n (n - 1) a1) as [S2 O2]; [lia | lia | | | |].
  - by replace (S (n - 1)) with n by lia.
  - intros i j ???. lia.
  - intros c c' ??. lia.
  - split; [|done]. eapply swaps_trans; [exact S1 | exact S2].
Qed.

(** The outer loop. *)
Lemma ordered_refine (a a' : list nat) (p : nat * nat) (P Q : list (nat * nat)) :
  p.2 < length a → apart (p :: P) → ordered_but v a (p :: P) →
  swaps p.1 p.2 a a' →
  (∀ i j, p.1 <= i → i < j → j <= p.2 →
     npy_le (K a' i) (K a' j) ∨ ∃ q, q ∈ Q ∧ inside q i ∧ inside q j) →
  ordered_but v a' (Q ++ P).
Proof.
  intros Hp [Ap _] O S In i j Hij Hj.
  rewrite (swaps_length _ _ _ _ S) in Hj.
  assert (∀ q k k', q ∈ P → inside q k → inside q k' → inside p k → False) as Far.
  { intros q k k' Hq [A1 A2] _ [B1 B2]. rewrite Forall_forall in Ap.
    destruct (Ap q Hq); lia. }
  assert (∀ k k', k < k' → k' < length a → ¬ (inside p k ∧ inside p k') →
            (inside p k ∨ inside p k' →
               npy_le (K a k) (K a k'))
            ∧ (npy_le (K a k) (K a k') ∨ ∃ q, q ∈ P ∧ inside q k ∧ inside q k')) as Old.
  { intros k k' Hk Hk' Nboth.
    destruct (O k k' Hk Hk') as [L|(q & [->|Hq]%elem_of_cons & I1 & I2)].
    - split; [done | by left].
    - by destruct Nboth.
    - split; [|right; by exists q]. intros [I|I]; exfalso.
      + by apply (Far q k k').
      + by apply (Far q k' k). }
  destruct (decide (p.1 <= i ∧ i <= p.2)) as [Ii|Ii],
           (decide (p.1 <= j ∧ j <= p.2)) as [Ij|Ij].
  - destruct (In i j) as [L|(q & Hq & I)]; [lia | lia | lia | by left |].
    right. exists q. split; [|done]. apply elem_of_app. by left.
  - left. rewrite (swaps_outside _ _ _ _ j S) by lia.
    destruct (swaps_inside _ _ _ _ i Hp S) as (i' & Hi' & ->); [lia|].
    apply Old; [lia | lia | unfold inside; lia | by left].
  - left. rewrite (swaps_outside _ _ _ _ i S) by lia.
    destruct (swaps_inside _ _ _ _ j Hp S) as (j' & Hj' & ->); [lia|].
    apply Old; [lia | lia | unfold inside; lia | by right].
  - rewrite (swaps_outside _ _ _ _ i S), (swaps_outside _ _ _ _ j S) by lia.
    destruct (Old i j) as [_ [L|(q & Hq & I)]]; [lia | lia | unfold inside; lia | by left |].
    right. exists q. split; [|done]. apply elem_of_app. by right.
Qed.

Lemma cost_positive (p : nat * nat) (P : list (nat * nat)) : 1 <= cost (p :: P).
Proof. unfold cost. simpl. lia. Qed.

Lemma well_formed_length (a a' : list nat) (P : list (nat * nat)) :
  length a' = length a → well_formed a P → well_formed a' P.
Proof. intros E. unfold well_formed. by rewrite E. Qed.

(** A range that has been sorted leaves the ranges to sort. *)
Lemma range_done (a a' : list nat) (pl pr : nat) (P : list (nat * nat)) :
  well_formed a ((pl, pr) :: P) → apart ((pl, pr) :: P) →
  ordered_but v a ((pl, pr) :: P) →
  swaps pl pr a a' → sorted_on v a' pl pr →
  a' ≡ₚ a ∧ well_formed a' P ∧ apart P ∧ ordered_but v a' P
  ∧ cost P < cost ((pl, pr) :: P).
Proof.
  intros W A O S Srt.
  apply Forall_cons in W as [[Hlr Hr] W]. simpl in Hlr, Hr.
  split_and!.
  - by apply (swaps_perm pl pr).
  - apply (well_formed_length a); [|done]. apply (swaps_length _ _ _ _ S).
  - by destruct A.
  - apply (ordered_refine a a' (pl, pr) P []); try done.
    intros i j Hi Hij Hj. left. by apply Srt.
  - unfold cost. simpl. lia.
Qed.

(** A range that has been partitioned gives way to its two sides. *)
Lemma range_split (a a' : list nat) (pl pr pi : nat) (P : list (nat * nat)) :
  well_formed a ((pl, pr) :: P) → apart ((pl, pr) :: P) →
  ordered_but v a ((pl, pr) :: P) →
  swaps pl pr a a' → pl < pi < pr →
  (∀ k, pl <= k < pi → npy_le (K a' k) (K a' pi)) →
  (∀ k, pi < k <= pr → npy_le (K a' pi) (K a' k)) →
  let left := (pl, pi - 1) in
  let right := (S pi, pr) in
  a' ≡ₚ a
  ∧ (well_formed a' (left :: right :: P) ∧ apart (left :: right :: P)
     ∧ ordered_but v a' (left :: right :: P)
     ∧ cost (left :: right :: P) < cost ((pl, pr) :: P))
  ∧ (well_formed a' (right :: left :: P) ∧ apart (right :: left :: P)
     ∧ ordered_but v a' (right :: left :: P)
     ∧ cost (right :: left :: P) < cost ((pl, pr) :: P)).
Proof.
  intros W A O S Hpi Lo Hi left right.
  apply Forall_cons in W as [[Hlr Hr] W]. simpl in Hlr, Hr.
  destruct A as [Ap A].
  assert (length a' = length a) as N by apply (swaps_length _ _ _ _ S).
  assert (well_formed a' P) as W' by by apply (well_formed_length a).
  assert (Forall (λ q, left.2 < q.1 ∨ q.2 < left.1) P) as Al.
  { eapply Forall_impl; [exact Ap|]. simpl. intros q ?. lia. }
  assert (Forall (λ q, right.2 < q.1 ∨ q.2 < right.1) P) as Ar.
  { eapply Forall_impl; [exact Ap|]. simpl. intros q ?. lia. }
  assert (∀ Q, (∀ q, q ∈ [left; right] → q ∈ Q) →
               ordered_but v a' (Q ++ P)) as Ord.
  { intros Q Sub. apply (ordered_refine a a' (pl, pr) P Q); try done.
    simpl. intros i j Hi1 Hij Hj2.
    destruct (decide (j < pi)).
    { right. exists left. split; [apply Sub; left|]. unfold inside. simpl. lia. }
    destruct (decide (pi < i)).
    { right. exists right. split; [apply Sub; right; left|]. unfold inside. simpl. lia. }
    left. destruct (decide (i = pi)) as [->|]; [apply Hi; lia|].
    destruct (decide (j = pi)) as [->|]; [apply Lo; lia|].
    apply (npy_le_trans _ (K a' pi)); [apply Lo | apply Hi]; lia. }
  split_and!.
  - by apply (swaps_perm pl pr).
  - repeat constructor; simpl; try done; lia.
  - simpl. split_and!; try done. constructor; [simpl; lia | done].
  - apply (Ord [left; right]). by intros.
  - unfold cost. simpl. lia.
  - repeat constructor; simpl; try done; lia.
  - simpl. split_and!; try done. constructor; [simpl; lia | done].
  - apply (Ord [right; left]). intros q [->|[->|[]%elem_of_nil]%elem_of_cons]%elem_of_cons.
    + right. left.
    + left.
  - unfold cost. simpl. lia.
Qed.

Lemma aquicksort_loop_spec (fuel : nat) (a : list nat) (pl pr : nat) (cdepth : Z)
    (stack : list (nat * nat * Z)) (inner : bool) :
  let P := (pl, pr) :: ranges stack in
  well_formed a P → apart P → ordered_but v a P → cost P <= fuel →
  ∃ a', aquicksort_loop fuel v a pl pr cdepth stack inner = Some a'
        ∧ a' ≡ₚ a ∧ ordered_but v a' [].
Proof.
  revert a pl pr cdepth stack inner.
  induction fuel as [|fuel IH]; intros a pl pr cdepth stack inner P W A O C.
  { pose proof (cost_positive (pl, pr) (ranges stack)). unfold P in C. lia. }
  assert (pl <= pr < length a) as Hlr by (by apply Forall_cons in W as [? _]).
  assert (∀ a1, swaps pl pr a a1 → sorted_on v a1 pl pr →
            ∃ a', match stack with
                  | [] => Some a1
                  | (pl', pr', d) :: stack' =>
                      aquicksort_loop fuel v a1 pl' pr' d stack' false
                  end = Some a'
                  ∧ a' ≡ₚ a ∧ ordered_but v a' []) as Pop.
  { intros a1 S1 O1.
    destruct (range_done a a1 pl pr (ranges stack) W A O S1 O1) as (P1 & W1 & A1 & Or1 & C1).
    destruct stack as [|[[pl' pr'] d] stack'].
    - exists a1. by split_and!.
    - destruct (IH a1 pl' pr' d stack' false) as (a' & E & P' & O'); try done.
      { unfold P, cost, ranges in *. simpl in *. lia. }
      exists a'. split_and!; [done | by rewrite P' | done]. }
  simpl.
  destruct (negb inner && (cdepth <? 0)%Z).
  { destruct (aheapsort_spec a pl (pr - pl + 1)) as [S1 O1]; [lia | lia |].
    replace (pl + (pr - pl + 1) - 1) with pr in * by lia.
    by apply Pop. }
  destruct (Nat.ltb_spec 16 (pr - pl)) as [Big|Small].
  - destruct (partition v a pl pr) as [a1 pi] eqn:E.
    apply partition_spec in E as (S1 & Hpi & Lo & Hi); [|lia..].
    destruct (range_split a a1 pl pr pi (ranges stack) W A O S1 Hpi Lo Hi)
      as (P1 & (W1 & A1 & O1 & C1) & (W2 & A2 & O2 & C2)).
    destruct (pi - pl <? pr - pi).
    + destruct (IH a1 pl (pi - 1) (cdepth - 1)%Z ((S pi, pr, (cdepth - 1)%Z) :: stack) true)
        as (a' & E' & P' & O'); try done.
      { unfold P, cost, ranges in *. simpl in *. lia. }
      exists a'. split_and!; [done | by rewrite P' | done].
    + destruct (IH a1 (S pi) pr (cdepth - 1)%Z ((pl, pi - 1, (cdepth - 1)%Z) :: stack) true)
        as (a' & E' & P' & O'); try done.
      { unfold P, cost, ranges in *. simpl in *. lia. }
      exists a'. split_and!; [done | by rewrite P' | done].
  - destruct (insertion_spec a pl pr) as [S1 O1]; [lia | lia |]. by apply Pop.
Qed.

End Sorting.

Lemma npy_argsort_sorts (v : list float64) :
  ∃ a, npy_argsort v = Some a
       ∧ a ≡ₚ seq 0 (length v)
       ∧ ∀ i j : nat, (i < j)%nat → (j < length v)%nat →
           npy_le (v !!! (a !!! i)) (v !!! (a !!! j)).
Proof.
  unfold npy_argsort.
  destruct (decide (length v = 0%nat)) as [E|N].
  { apply nil_length_inv in E as ->. exists []. split_and!; [done..|]. simpl. lia. }
  destruct (aquicksort_loop_spec v (2 * length v + 1) (seq 0 (length v)) 0
              (length v - 1) (2 * Z.log2 (Z.of_nat (length v))) [] false)
    as (a & E & P & O).
  - repeat constructor; simpl; rewrite ?length_seq; lia.
  - by repeat constructor.
  - intros i j Hij Hj. right. exists (0%nat, (length v - 1)%nat).
    rewrite length_seq in Hj. split; [left|]. unfold inside. simpl. lia.
  - unfold cost. simpl. lia.
  - exists a. split_and!; [done..|].
    intros i j Hij Hj.
    destruct (O i j) as [L|(p & []%elem_of_nil & _)]; [done| |done].
    by rewrite P, length_seq.
Qed.

(** ** Rows taken by a mask and rows taken by position *)

Lemma getitem_mask_split {A : Type} (l : list A) (mask : list bool) :
  length mask = length l →
  getitem_mask l (map negb mask) ++ getitem_mask l mask ≡ₚ l.
Proof.
  revert mask. induction l as [|x l IH]; intros [|b mask] E; simpl in *; try done.
  injection E as E. destruct b; simpl.
  - rewrite <- Permutation_middle. by rewrite IH.
  - by rewrite IH.
Qed.

Lemma length_getitem_mask {A B : Type} (l : list A) (k : list B) (mask : list bool) :
  length l = length k → length (getitem_mask l mask) = length (getitem_mask k mask).
Proof.
  revert k mask. induction l as [|x l IH]; intros [|y k] [|b mask] E; simpl in *; try done.
  injection E as E. destruct b; simpl; auto.
Qed.

Lemma take_getitem_mask_from {A : Type} (pre rows : list A) (mask : list bool) :
  take (getitem_mask (seq (length pre) (length rows)) mask) (pre ++ rows)
  = getitem_mask rows mask.
Proof.
  unfold take. revert pre mask.
  induction rows as [|x rows IH]; intros pre [|b mask]; simpl; try done.
  specialize (IH (pre ++ [x]) mask).
  rewrite length_app, Nat.add_1_r, <- (assoc_L (++)) in IH.
  destruct b; simpl; [|exact IH].
  rewrite list_lookup_middle by done. by f_equal.
Qed.

Lemma take_getitem_mask {A : Type} (rows : list A) (mask : list bool) :
  take (getitem_mask (seq 0 (length rows)) mask) rows = getitem_mask rows mask.
Proof. apply (take_getitem_mask_from [] rows). Qed.

Lemma take_app {A : Type} (i1 i2 : list nat) (rows : list A) :
  take (i1 ++ i2) rows = take i1 rows ++ take i2 rows.
Proof. apply omap_app. Qed.

Lemma take_reverse {A : Type} (indexer : list nat) (rows : list A) :
  take (reverse indexer) rows = reverse (take indexer rows).
Proof.
  unfold take. induction indexer as [|i indexer IH]; [done|].
  rewrite reverse_cons, omap_app, IH. simpl.
  destruct (rows !! i); simpl; [by rewrite reverse_cons | by rewrite (right_id_L [] (++))].
Qed.

Lemma lookup_take {A : Type} (indexer : list nat) (rows : list A) (i : nat) :
  Forall (λ j, (j < length rows)%nat) indexer →
  take indexer rows !! i = indexer !! i ≫= (λ j, rows !! j).
Proof.
  intros F. unfold take. revert i.
  induction F as [|k indexer Hk _ IH]; intros i; [done|]. simpl.
  destruct (lookup_lt_is_Some_2 rows k Hk) as [x E]. rewrite E.
  destruct i as [|i]; simpl; [by rewrite E | apply IH].
Qed.

Lemma take_take {A : Type} (order indexer : list nat) (rows : list A) :
  Forall (λ j, (j < length rows)%nat) indexer →
  take (take order indexer) rows = take order (take indexer rows).
Proof.
  intros F. pose proof (λ i, lookup_take indexer rows i F) as L.
  unfold take in *.
  induction order as [|i order IH]; [done|]. simpl.
  rewrite L.
  destruct (indexer !! i) as [j|]; simpl; [|exact IH].
  destruct (rows !! j); [f_equal|]; exact IH.
Qed.

Lemma elem_of_take {A : Type} (indexer : list nat) (rows : list A) (x : A) :
  x ∈ take indexer rows → x ∈ rows.
Proof.
  unfold take. intros (i & _ & E)%list_elem_of_omap. by eapply list_elem_of_lookup_2.
Qed.

(** ** Sorted lists *)

Lemma StronglySorted_reverse {A : Type} (R : relation A) (l : list A) :
  StronglySorted R l → StronglySorted (flip R) (reverse l).
Proof.
  induction 1 as [|x l _ IH F]; [constructor|].
  rewrite reverse_cons. apply StronglySorted_app_2; [|done|by repeat constructor].
  intros y z Hy ->%list_elem_of_singleton. rewrite elem_of_reverse in Hy.
  rewrite Forall_forall in F. unfold flip. by apply F.
Qed.

Lemma StronglySorted_among {A : Type} (R R' : relation A) (l : list A) :
  (∀ x y, x ∈ l → y ∈ l → R x y → R' x y) →
  StronglySorted R l → StronglySorted R' l.
Proof.
  intros Imp S. induction S as [|x l _ IH F]; [constructor|].
  constructor.
  - apply IH. intros y z Hy Hz. apply Imp; by right.
  - rewrite Forall_forall in F |- *. intros y Hy. apply Imp; [left | by right | by apply F].
Qed.

Lemma StronglySorted_fmap_positions {A : Type} (R : relation A) (f : nat → A)
    (order : list nat) :
  (∀ i j : nat, (i < j)%nat → (j < length order)%nat →
     R (f (order !!! i)) (f (order !!! j))) →
  StronglySorted R (f <$> order).
Proof.
  induction order as [|x order IH]; intros H; [constructor|].
  simpl. constructor.
  - apply IH. intros i j Hij Hj. apply (H (S i) (S j)); simpl; lia.
  - apply Forall_forall. intros y (k & -> & Hk)%list_elem_of_fmap.
    apply list_elem_of_lookup in Hk as [j Hj].
    pose proof (lookup_lt_Some _ _ _ Hj) as Hlen.
    rewrite <- (list_lookup_total_correct _ _ _ Hj).
    apply (H 0%nat (S j)); simpl; lia.
Qed.

(** ** The default sort of pandas *)

Lemma desc_le_of_npy_le (x y : float64) :
  isnan x = false → npy_le y x → desc_le x y = true.
Proof.
  unfold npy_le, npy_lt.
  destruct x as [a| | |], y as [b| | |]; simpl; try done.
  all: rewrite ?orb_false_r; by intros _ ->.
Qed.

Lemma nargsort_sorts (keys : list float64) :
  ∃ indexer, nargsort keys = Some indexer
             ∧ indexer ≡ₚ seq 0 (length keys)
             ∧ Sorted (λ x y, desc_le x y = true) (take indexer keys).
Proof.
  unfold nargsort.
  set (idx := seq 0 (length keys)).
  set (mask := map isnan keys).
  set (non_nans := reverse (getitem_mask keys (map negb mask))).
  set (non_nan_idx := reverse (getitem_mask idx (map negb mask))).
  set (nan_idx := getitem_mask idx mask).
  destruct (npy_argsort_sorts non_nans) as (order & -> & P & S).
  simpl. eexists. split; [reflexivity|].
  assert (length non_nan_idx = length non_nans) as Hlen.
  { unfold non_nan_idx, non_nans. rewrite !length_reverse.
    apply length_getitem_mask. unfold idx. by rewrite length_seq. }
  assert (Forall (λ j, (j < length keys)%nat) idx) as Fidx.
  { apply Forall_forall. intros j Hj. apply elem_of_seq in Hj. lia. }
  assert (take non_nan_idx keys = non_nans) as Tn.
  { unfold non_nan_idx, non_nans, idx. by rewrite take_reverse, take_getitem_mask. }
  split.
  - rewrite reverse_Permutation, take_perm by (by rewrite Hlen).
    unfold non_nan_idx. rewrite reverse_Permutation.
    apply getitem_mask_split. unfold mask, idx. by rewrite length_map, length_seq.
  - apply StronglySorted_Sorted.
    rewrite take_app, take_reverse, take_take, Tn.
    2:{ unfold non_nan_idx. rewrite reverse_Permutation. by apply getitem_mask_Forall. }
    unfold nan_idx, idx. rewrite take_getitem_mask.
    assert (Forall (λ x, isnan x = true) (getitem_mask keys mask)) as Nans.
    { unfold mask. clear. induction keys as [|x keys IH]; simpl; [constructor|].
      destruct (isnan x) eqn:E; [by constructor | done]. }
    assert (Forall (λ x, isnan x = false) non_nans) as Nums.
    { unfold non_nans, mask. rewrite reverse_Permutation. clear.
      induction keys as [|x keys IH]; simpl; [constructor|].
      destruct (isnan x) eqn:E; simpl; [done | by constructor]. }
    rewrite Forall_forall in Nans, Nums.
    apply StronglySorted_app_2.
    + intros x y _ Hy. apply Nans in Hy. by destruct x, y.
    + apply (StronglySorted_among (flip npy_le)).
      { intros x y Hx _ L. apply desc_le_of_npy_le; [|done].
        apply Nums. rewrite elem_of_reverse in Hx. by apply elem_of_take in Hx. }
      apply StronglySorted_reverse.
      rewrite take_in_range.
      2:{ rewrite P. apply Forall_forall. intros i Hi. apply elem_of_seq in Hi. lia. }
      apply StronglySorted_fmap_positions. intros i j Hij Hj. apply S; [done|].
      by rewrite (Permutation_length P), length_seq in Hj.
    + apply (StronglySorted_among (λ _ _, True)).
      { intros x y _ Hy _. apply Nans in Hy. by destruct x, y. }
      generalize (getitem_mask keys mask). clear. intros l.
      induction l; constructor; [done|]. by apply Forall_forall.
Qed.

(** [sort_values] as the script calls it sorts: the indexer of pandas
    lists every position once and picks keys that never increase. *)
Lemma pandas_indexer_sorts : sorts_descending pandas_indexer.
Proof.
  intros keys. unfold pandas_indexer.
  by destruct (nargsort_sorts keys) as (indexer & -> & P & S).
Qed.

(** ** The ranking *)

Lemma performance_score_rows (fd : list Row) :
  performance_score (map Customer_Satisfaction_Score fd)
                    (map CO2_Emissions_kg_per_passenger fd)
  = map row_score fd.
Proof. unfold performance_score. induction fd as [|r fd IH]; [done|]. simpl. by f_equal. Qed.

Lemma scored_rows_map (fd : list Row) :
  scored_rows fd = map (λ r, (r, row_score r)) fd.
Proof.
  unfold scored_rows. rewrite performance_score_rows.
  induction fd as [|r fd IH]; [done|]. simpl. by f_equal.
Qed.

Lemma filter_scored (k : group_key) (fd : list Row) :
  filter (λ x : Row * Q, key_of x.1 = Some k) (map (λ r, (r, row_score r)) fd)
  = map (λ r, (r, row_score r)) (filter (λ r, key_of r = Some k) fd).
Proof.
  induction fd as [|r fd IH]; [done|]. simpl.
  rewrite !filter_cons. simpl. destruct (decide (key_of r = Some k)); simpl; by rewrite IH.
Qed.

Lemma omap_map {A B C : Type} (f : B → option C) (g : A → B) (l : list A) :
  omap f (map g l) = omap (λ x, f (g x)) l.
Proof.
  induction l as [|x l IH]; [done|]. simpl.
  destruct (f (g x)); [f_equal|]; exact IH.
Qed.

(** What one entry of the aggregated groups holds. *)
Lemma elem_of_performance_groups (fd : list Row) (e : Performer) :
  e ∈ performance_groups (scored_rows fd) →
  let rows := filter (λ r, key_of r = Some (tp_Country e, tp_Transport_Type e)) fd in
  rows ≠ []
  ∧ tp_Performance_Score e = mean (map row_score rows)
  ∧ tp_Annual_Usage e = sum (map Annual_Usage rows)
  ∧ tp_Customer_Satisfaction_Score e = mean (map Customer_Satisfaction_Score rows)
  ∧ tp_CO2_Emissions_kg_per_passenger e
    = mean (map CO2_Emissions_kg_per_passenger rows).
Proof.
  unfold performance_groups. intros (g & -> & Hg)%list_elem_of_fmap.
  apply elem_of_groupby in Hg as (Hrows & _ & Hne).
  destruct g as [[c t] scored]; simpl in *.
  rewrite scored_rows_map, filter_scored in Hrows.
  subst scored. rewrite !map_map. simpl.
  split_and!; try done. intros E. apply Hne.
  apply nil_length_inv. rewrite length_map. apply (f_equal length) in E. exact E.
Qed.

Lemma length_performance_groups (fd : list Row) :
  length (performance_groups (scored_rows fd)) = length (remove_dups (omap key_of fd)).
Proof.
  unfold performance_groups. rewrite length_map, length_groupby.
  by rewrite scored_rows_map, omap_map.
Qed.

(** The score of a ranked group is a finite number. *)
Lemma performance_score_finite (fd : list Row) (e : Performer) :
  e ∈ performance_groups (scored_rows fd) →
  let rows := filter (λ r, key_of r = Some (tp_Country e, tp_Transport_Type e)) fd in
  tp_Performance_Score e = Num (sum (map row_score rows) / count rows).
Proof.
  intros (Hne & Hs & _)%elem_of_performance_groups. cbv zeta.
  rewrite Hs, mean_nonempty.
  - unfold count. by rewrite length_map.
  - intros E. apply Hne. by apply fmap_nil_inv in E.
Qed.

Lemma StronglySorted_lookup {A : Type} (R : relation A) (l : list A) :
  StronglySorted R l →
  ∀ (i j : nat) (a b : A), (i < j)%nat → l !! i = Some a → l !! j = Some b → R a b.
Proof.
  induction 1 as [|x l _ IH F]; intros i j a b Hij Hi Hj; [done|].
  destruct j as [|j]; [lia|]. simpl in Hj.
  destruct i as [|i]; simpl in Hi.
  - injection Hi as ->. rewrite Forall_forall in F.
    apply F. by eapply list_elem_of_lookup_2.
  - apply (IH i j); [lia|done..].
Qed.

(** C6 (without the tie rule).  The ranking has one entry for each
    distinct (country, transport type) pair among the filtered rows that
    have both; it lists the aggregated groups, each once; the score of an
    entry is the mean, over the rows of its group, of
    satisfaction * 20 + (100 - emissions) * 0.5, with no clamping, and is
    a finite number; and the scores never increase along the ranking. *)
Theorem ranking_sorted (fd : list Row) :
  let top := ranking pandas_indexer fd in
  length top = length (remove_dups (omap key_of fd))
  ∧ top ≡ₚ performance_groups (scored_rows fd)
  ∧ (∀ e, e ∈ top →
       let rows := filter (λ r, key_of r = Some (tp_Country e, tp_Transport_Type e)) fd in
       rows ≠ []
       ∧ tp_Performance_Score e = mean (map row_score rows)
       ∧ tp_Performance_Score e = Num (sum (map row_score rows) / count rows))
  ∧ (∀ (i j : nat) (a b : Performer),
       (i < j)%nat → top !! i = Some a → top !! j = Some b →
       ∃ x y, tp_Performance_Score a = Num x ∧ tp_Performance_Score b = Num y
              ∧ (y <= x)%Q).
Proof.
  intros top.
  assert (top ≡ₚ performance_groups (scored_rows fd)) as P
    by apply (sort_values_desc_perm _ pandas_indexer_sorts).
  assert (∀ e, e ∈ top →
            let rows := filter (λ r, key_of r = Some (tp_Country e, tp_Transport_Type e)) fd in
            rows ≠ []
            ∧ tp_Performance_Score e = mean (map row_score rows)
            ∧ tp_Performance_Score e = Num (sum (map row_score rows) / count rows)) as S.
  { intros e He. rewrite P in He.
    pose proof (performance_score_finite fd e He) as F.
    apply elem_of_performance_groups in He as (Hne & Hs & _). by split_and!. }
  split_and!; [|done..|].
  - by rewrite P, length_performance_groups.
  - intros i j a b Hij Hi Hj.
    destruct (S a) as (_ & _ & Ha); [by eapply list_elem_of_lookup_2|].
    destruct (S b) as (_ & _ & Hb); [by eapply list_elem_of_lookup_2|].
    eexists _, _. split_and!; [done..|].
    pose proof (StronglySorted_lookup _ _
      (sort_values_desc_sorted _ pandas_indexer_sorts tp_Performance_Score
         (performance_groups (scored_rows fd))) i j a b Hij Hi Hj) as L.
    cbv beta in L. rewrite Ha, Hb in L. by apply desc_le_num in L.
Qed.

(** Two tied groups that the ranking lists in the other order break the
    tie rule, provided no other entry of the ranking has the country of
    either. *)
Lemma swapped_not_tie_order (groups top : list Performer) (i j : nat)
    (ca cb : string) (ia ib : nat) :
  (i < j)%nat → (ib <= ia)%nat →
  tp_Country <$> groups !! i = Some ca →
  tp_Country <$> groups !! j = Some cb →
  (tp_Performance_Score <$> groups !! i) ≫= (λ x,
     (tp_Performance_Score <$> groups !! j) ≫= (λ y, Some (feq x y))) = Some true →
  list_find (λ c, c = ca) (tp_Country <$> top) = Some (ia, ca) →
  list_find (λ c, c = cb) (reverse (tp_Country <$> top))
    = Some ((length top - S ib)%nat, cb) →
  (ib < length top)%nat →
  ¬ keeps_tie_order groups top.
Proof.
  intros Hij Hba Ha Hb Hf Fa Fb Hlen K.
  destruct (groups !! i) as [a|] eqn:Ea; [|done].
  destruct (groups !! j) as [b|] eqn:Eb; [|done].
  simpl in Ha, Hb, Hf. injection Ha as <-. injection Hb as <-. injection Hf as Hf.
  destruct (K i j a b Hij Ea Eb Hf) as (i' & j' & Hij' & Hi & Hj).
  (* [a] cannot stand before position [ia] *)
  apply list_find_Some in Fa as (_ & _ & Fa).
  assert (ia <= i')%nat as Hia.
  { apply Nat.nlt_ge. intros Lt.
    apply (Fa i' (tp_Country a)); [|done..].
    by rewrite list_lookup_fmap, Hi. }
  (* [b] cannot stand after position [ib] *)
  apply list_find_Some in Fb as (_ & _ & Fb).
  assert (j' <= ib)%nat as Hjb.
  { apply Nat.nlt_ge. intros Lt.
    assert (j' < length top)%nat as Hj' by by eapply lookup_lt_Some.
    apply (Fb (length top - S j')%nat (tp_Country b)); [|lia|done].
    rewrite reverse_lookup by (rewrite length_fmap; lia).
    rewrite length_fmap.
    replace (length top - S (length top - S j'))%nat with j' by lia.
    by rewrite list_lookup_fmap, Hj. }
  lia.
Qed.

(** C6 as stated fails in its tie rule.  [sort_values] is called with the
    default kind, which sorts and promises nothing about ties.  On
    eighteen groups of equal score numpy's quicksort partitions once and
    then sorts by insertion: the ranking lists the third to the
    seventeenth group backwards. *)
Lemma tie_order_counterexample :
  let row c := mkRow (Some c) 2020 (Some "Bus") 100 4 10 50 in
  let names := [ "C01"; "C02"; "C03"; "C04"; "C05"; "C06"; "C07"; "C08"; "C09";
                 "C10"; "C11"; "C12"; "C13"; "C14"; "C15"; "C16"; "C17"; "C18" ] in
  let fd18 := map row names in
  let groups18 := performance_groups (scored_rows fd18) in
  map tp_Country groups18 = names
  ∧ Forall (λ x, feq x (Num 125) = true) (map tp_Performance_Score groups18)
  ∧ nargsort (map tp_Performance_Score groups18)
    = Some [0; 1; 16; 15; 14; 13; 12; 11; 10; 9; 8; 7; 6; 5; 4; 3; 2; 17]%nat
  ∧ map tp_Country (ranking pandas_indexer fd18)
    = [ "C01"; "C02"; "C17"; "C16"; "C15"; "C14"; "C13"; "C12"; "C11";
        "C10"; "C09"; "C08"; "C07"; "C06"; "C05"; "C04"; "C03"; "C18" ]
  ∧ ¬ keeps_tie_order groups18 (ranking pandas_indexer fd18).
Proof.
  intros row names fd18 groups18. split_and!.
  - by vm_compute.
  - vm_compute. by repeat constructor.
  - by vm_compute.
  - by vm_compute.
  - apply (swapped_not_tie_order _ _ 2 3 "C03" "C04" 16 15);
      [lia | lia | by vm_compute.. | vm_compute; lia].
Qed.

(** ** Insights *)













(** ** The top performer *)

Lemma key_of_Some (r : Row) (c t : string) :
  key_of r = Some (c, t) ↔ Country r = Some c ∧ Transport_Type r = Some t.
Proof.
  unfold key_of. destruct (Country r) as [c'|], (Transport_Type r) as [t'|]; simpl.
  - split; [by intros [= -> ->] | by intros [[= ->] [= ->]]].
  - split; [done | by intros [_ ?]].
  - split; [done | by intros [? _]].
  - split; [done | by intros [? _]].
Qed.







(** ** Running the script *)

Lemma bind_returned {A B : Type} (m : script A) (k : A → script B)
    (w w' : world) (a : A) :
  m w = (Returned a, w') → (m ≫= k) w = k a w'.
Proof. intros E. unfold mbind, script_bind. by rewrite E. Qed.



Lemma read_frame_run (l : loc) (w : world) (f : DataFrame) :
  frames w !! l = Some f → read_frame l w = (Returned f, w).
Proof. intros E. unfold read_frame. by rewrite E. Qed.

Lemma fresh_frame (w : world) : frames w !! fresh (dom (frames w)) = None.
Proof. apply not_elem_of_dom, is_fresh. Qed.

Lemma fresh_frame_ne (w : world) (l : loc) (f : DataFrame) :
  frames w !! l = Some f → fresh (dom (frames w)) ≠ l.
Proof. intros E <-. by rewrite fresh_frame in E. Qed.

(** Emitting steps only add to the page. *)
Ltac run_emits :=
  cbv beta iota zeta delta [mbind script_bind emit mret script_ret frames page];
  rewrite <- ?(assoc_L (++)).







Lemma find_set_column (name : string) (col : list Q) (cols : list (string * list Q)) :
  ∃ i, list_find (λ c, c.1 = name) (set_column name col cols) = Some (i, (name, col)).
Proof.
  induction cols as [|c cols [i IH]]; simpl.
  - exists 0%nat. by rewrite decide_True.
  - destruct (decide (c.1 = name)) as [E|N]; simpl.
    + exists 0%nat. by rewrite decide_True.
    + exists (S i). rewrite decide_False by done. by rewrite IH.
Qed.

Lemma length_row_score (rows : list Row) :
  length (performance_score (map Customer_Satisfaction_Score rows)
                            (map CO2_Emissions_kg_per_passenger rows))
  = length rows.
Proof. by rewrite performance_score_rows, length_map. Qed.

(** The scorer: the ranking of the frame's rows, and one new frame, the
    copy that carries the score column.  Nothing else changes. *)
Lemma performance_scorer_run (indexer : list float64 → list nat) (fd : loc)
    (w : world) (filtered : DataFrame) :
  frames w !! fd = Some filtered →
  let c := fresh (dom (frames w)) in
  let scored :=
    {| frame_rows := frame_rows filtered;
       frame_added := set_column "Performance_Score"
                        (map row_score (frame_rows filtered)) (frame_added filtered) |} in
  performance_scorer indexer fd w
  = (Returned (ranking indexer (frame_rows filtered)),
     {| frames := <[c := scored]> (frames w); page := page w |}).
Proof.
  intros E c scored. unfold performance_scorer, copy.
  set (w1 := {| frames := <[c := filtered]> (frames w); page := page w |}).
  rewrite (bind_returned _ _ w w1 c).
  2:{ by rewrite (bind_returned _ _ _ _ _ (read_frame_run _ _ _ E)). }
  assert (frames w1 !! c = Some filtered) as E1 by apply lookup_insert_eq.
  rewrite (bind_returned _ _ _ _ _ (read_frame_run _ _ _ E1)).
  set (w2 := {| frames := <[c := scored]> (frames w); page := page w |}).
  rewrite (bind_returned _ _ w1 w2 ()).
  2:{ unfold setitem.
      rewrite (bind_returned _ _ _ _ _ (read_frame_run _ _ _ E1)).
      rewrite decide_True by apply length_row_score.
      unfold write_frame, w1, w2. simpl.
      by rewrite insert_insert_eq, performance_score_rows. }
  assert (frames w2 !! c = Some scored) as E2 by apply lookup_insert_eq.
  rewrite (bind_returned _ _ _ _ _ (read_frame_run _ _ _ E2)).
  unfold get_column, scored at 1. simpl frame_added.
  destruct (find_set_column "Performance_Score"
              (map row_score (frame_rows filtered)) (frame_added filtered)) as [i ->].
  simpl. unfold mbind, script_bind, mret, script_ret. simpl.
  by rewrite <- performance_score_rows.
Qed.

(** C10.  The scorer works on a copy.  Run on any store in which the
    filtered frame is [filtered], it returns the ranking of that frame's
    rows and leaves the frame exactly as it was: the same rows, the same
    columns, no [Performance_Score] column gained.  Every other frame
    already in the store is unchanged too, and so is the page; the score
    column sits in a new frame.  The detailed table, computed afterwards,
    is the one of the filtered rows, and it is what the page shows and
    the download offers. *)
Theorem scorer_leaves_filtered_frame (indexer : list float64 → list nat)
    (fd : loc) (w : world) (filtered : DataFrame) (today : string) :
  frames w !! fd = Some filtered →
  ∃ (w' w'' : world) (c : loc),
    performance_scorer indexer fd w
      = (Returned (ranking indexer (frame_rows filtered)), w')
    ∧ frames w' !! fd = Some filtered
    ∧ (∀ l f, frames w !! l = Some f → frames w' !! l = Some f)
    ∧ page w' = page w
    ∧ c ≠ fd
    ∧ frames w !! c = None
    ∧ frames w' !! c
      = Some {| frame_rows := frame_rows filtered;
                frame_added := set_column "Performance_Score"
                                 (map row_score (frame_rows filtered))
                                 (frame_added filtered) |}
    ∧ table_stage fd today w' = (Returned (), w'')
    ∧ frames w'' = frames w'
    ∧ Dataframe (display_df (frame_rows filtered)) ∈ page w''
    ∧ DownloadButton "📥 Download Analysis Results"
        (display_df (frame_rows filtered))
        ("transport_analysis_" +:+ today +:+ ".csv") ∈ page w''.
Proof.
  intros E.
  pose proof (performance_scorer_run indexer fd w filtered E) as R.
  simpl in R.
  set (c := fresh (dom (frames w))) in *.
  assert (c ≠ fd) as Hc by by apply (fresh_frame_ne w fd filtered).
  eexists _, _, c. split; [exact R|].
  assert (∀ l f, frames w !! l = Some f →
                 <[c := {| frame_rows := frame_rows filtered;
                           frame_added := set_column "Performance_Score"
                                            (map row_score (frame_rows filtered))
                                            (frame_added filtered) |}]>
                   (frames w) !! l = Some f) as Keep.
  { intros l f El. rewrite lookup_insert_ne; [done|].
    by apply (fresh_frame_ne w l f). }
  split_and!; simpl; [by apply Keep | exact Keep | done | done | apply fresh_frame
                     | apply lookup_insert_eq | ..].
  - unfold table_stage.
    erewrite bind_returned; [|apply read_frame_run; by apply Keep].
    run_emits. reflexivity.
  - done.
  - simpl. rewrite !elem_of_app, !elem_of_cons. tauto.
  - simpl. rewrite !elem_of_app, !elem_of_cons. tauto.
Qed.

Lemma scorer_leaves_filtered_frame_witness :
  let filtered := {| frame_rows := [ mkRow (Some "A") 2020 (Some "Bus") 100 (45 # 10) 1 50 ];
                     frame_added := [] |} in
  let w := {| frames := {[ 0%nat := filtered ]}; page := [] |} in
  ∃ w', (performance_scorer pandas_indexer 0%nat w).2 = w'
        ∧ frames w' !! 0%nat = Some filtered.
Proof.
  intros filtered w.
  destruct (scorer_leaves_filtered_frame pandas_indexer 0%nat w filtered "20250101")
    as (w' & _ & _ & R & K & _); [apply lookup_singleton_eq|].
  exists w'. by rewrite R.
Defined.








(** ** The empty result *)






(** * Further properties of the script *)

(** ** Filtering again *)


Lemma filtered_df_matches (df : list Row) (p : FilterParams) :
  Forall (matches p) (filtered_df df p).
Proof.
  apply Forall_forall. intros r Hr.
  by apply (selects_elem_of _ _ _ (filtered_df_selects df p)) in Hr as [_ M].
Qed.

Lemma filtered_df_twice (df : list Row) (p q : FilterParams) :
  (∀ r, matches q r → matches p r) →
  filtered_df (filtered_df df p) q = filtered_df df q.
Proof.
  intros Sub. induction df as [|r df IH]; [done|].
  rewrite (filtered_df_cons r df p), (filtered_df_cons r df q).
  destruct (_ && _) eqn:Ep.
  - rewrite filtered_df_cons. by rewrite IH.
  - rewrite IH. destruct (_ && _) eqn:Eq in |- *; [|done].
    apply matches_decide, Sub, matches_decide in Eq. congruence.
Qed.

(** X1.  Filtering is idempotent: the filter applied to its own result changes
    nothing. *)
Theorem filtered_df_idempotent (df : list Row) (p : FilterParams) :
  filtered_df (filtered_df df p) p = filtered_df df p.
Proof. by apply filtered_df_twice. Qed.

(** X2.  A narrower selection can be taken from the filtered table instead of
    the raw one: when every row that passes [q] passes [p], filtering the
    result of [p] by [q] gives what [q] gives on the raw table. *)
Theorem filtered_df_narrow (df : list Row) (p q : FilterParams) :
  countries q ⊆ countries p →
  transport_types q ⊆ transport_types p →
  fst (years p) <= fst (years q) → snd (years q) <= snd (years p) →
  (min_satisfaction p <= min_satisfaction q)%Q →
  filtered_df (filtered_df df p) q = filtered_df df q.
Proof.
  intros Hc Ht Hlo Hhi Hs. apply filtered_df_twice.
  intros r (Mc & My & Mt & Ms). split_and!.
  - by apply Hc.
  - lia.
  - lia.
  - by apply Ht.
  - by apply (Qle_trans _ (min_satisfaction q)).
Qed.

Lemma filtered_df_narrow_witness :
  let table := [ mkRow (Some "A") 2020 (Some "Bus") 100 (45 # 10) 1 50;
                 mkRow (Some "A") 2021 (Some "Bus") 150 (46 # 10) (11 # 10) 52;
                 mkRow (Some "B") 2020 (Some "Rail") 200 3 3 60 ] in
  let p := mkParams [Some "A"; Some "B"] (2020, 2021) [Some "Bus"; Some "Rail"] 0 in
  let q := mkParams [Some "A"] (2021, 2021) [Some "Bus"] 4 in
  filtered_df (filtered_df table p) q = filtered_df table q.
Proof.
  intros table p q. apply filtered_df_narrow.
  - intros c ->%list_elem_of_singleton. left.
  - intros c ->%list_elem_of_singleton. left.
  - simpl. lia.
  - simpl. lia.
  - by vm_compute.
Defined.

(** ** Smallest and largest entries *)




(** ** The first load *)

Lemma remove_dups_snoc {A : Type} `{EqDecision A} (l : list A) (x : A) :
  ∃ k, remove_dups (l ++ [x]) = k ++ [x].
Proof.
  induction l as [|y l [k IH]]; simpl.
  - by exists [].
  - destruct (decide_rel _ _ _); [by exists k|].
    exists (y :: k). by rewrite IH.
Qed.

Lemma unique_cons {A : Type} `{EqDecision A} (x : A) (col : list A) :
  ∃ k, unique (x :: col) = x :: k.
Proof.
  unfold unique. rewrite reverse_cons.
  destruct (remove_dups_snoc (reverse col) x) as [k ->].
  exists (reverse k). by rewrite reverse_app.
Qed.






(** ** Groups partition the table *)

Lemma lex_total {A B : Type} (cmp : A → A → comparison) (leb : B → B → bool) :
  (∀ x y, cmp x y = CompOpp (cmp y x)) →
  (∀ x y, leb x y = true ∨ leb y x = true) →
  Total (key_le cmp leb).
Proof.
  intros Anti Tot [a1 a2] [b1 b2]. unfold key_le, lex_leb. simpl.
  rewrite (Anti b1 a1). destruct (cmp a1 b1); simpl; auto.
Qed.

Lemma string_leb_total (s t : string) : String.leb s t = true ∨ String.leb t s = true.
Proof.
  unfold String.leb. rewrite (String.compare_antisym t s).
  destruct (String.compare s t); simpl; auto.
Qed.

Global Instance by_country_type_total : Total by_country_type.
Proof.
  apply lex_total; [apply String.compare_antisym | apply string_leb_total].
Qed.

Global Instance by_year_type_total : Total by_year_type.
Proof.
  apply lex_total; [|apply string_leb_total].
  intros x y. apply Z.compare_antisym.
Qed.

Lemma filter_ext_in {A : Type} (P1 P2 : A → Prop)
    `{!∀ x, Decision (P1 x), !∀ x, Decision (P2 x)} (l : list A) :
  (∀ x, x ∈ l → P1 x ↔ P2 x) → filter P1 l = filter P2 l.
Proof.
  induction l as [|a l IH]; intros Iff; [done|].
  rewrite !filter_cons, IH by (intros x Hx; apply Iff; by right).
  destruct (decide (P1 a)) as [H1|H1], (decide (P2 a)) as [H2|H2]; try done;
    exfalso; apply (Iff a) in H1 || apply (Iff a) in H2; try done; left.
Qed.

Section Partition.
Context {A K : Type} `{EqDecision K} (key : A → option K).

Lemma filter_key_split (k : K) (ks : list K) (rows : list A) :
  k ∉ ks →
  filter (λ r, key r = Some k) rows ++ filter (λ r, key r ∈ Some <$> ks) rows
  ≡ₚ filter (λ r, key r ∈ Some <$> (k :: ks)) rows.
Proof.
  intros Hk. induction rows as [|r rows IH]; [done|].
  rewrite !filter_cons.
  destruct (decide (key r = Some k)) as [E|N].
  - rewrite decide_False.
    2:{ rewrite E. intros (k' & [= <-] & Hk')%list_elem_of_fmap. contradiction. }
    rewrite decide_True by (rewrite E; left). simpl. by rewrite IH.
  - destruct (decide (key r ∈ Some <$> ks)) as [I|I].
    + rewrite decide_True by (by right).
      rewrite <- Permutation_middle. by rewrite IH.
    + rewrite decide_False; [done|].
      rewrite fmap_cons. intros [?|?]%elem_of_cons; contradiction.
Qed.

Lemma concat_by_key (ks : list K) (rows : list A) :
  NoDup ks →
  concat (map (λ k, filter (λ r, key r = Some k) rows) ks)
  ≡ₚ filter (λ r, key r ∈ Some <$> ks) rows.
Proof.
  induction 1 as [|k ks Hk _ IH]; simpl.
  - induction rows as [|r rows IHr]; [done|].
    rewrite filter_cons_False; [done|]. apply not_elem_of_nil.
  - rewrite IH. by apply filter_key_split.
Qed.

Context (R : relation K) `{RelDecision K K R}.

Lemma groupby_keys_NoDup (rows : list A) : NoDup (map fst (groupby R key rows)).
Proof. rewrite groupby_keys_perm. apply NoDup_unique. Qed.

(** The groups hold the rows that have a key, each once. *)
Lemma groupby_concat (rows : list A) :
  concat (map snd (groupby R key rows)) ≡ₚ filter (λ r, is_Some (key r)) rows.
Proof.
  unfold groupby. rewrite map_map. simpl.
  rewrite concat_by_key.
  - erewrite filter_ext_in; [done|]. intros r Hr. split.
    + intros (k & E & _)%list_elem_of_fmap. by exists k.
    + intros [k E]. apply list_elem_of_fmap. exists k. split; [done|].
      rewrite merge_sort_Permutation. apply elem_of_unique, list_elem_of_omap.
      by exists r.
  - rewrite merge_sort_Permutation. apply NoDup_unique.
Qed.

Lemma groupby_keys_sorted `{!Total R} (rows : list A) :
  Sorted R (map fst (groupby R key rows)).
Proof. rewrite groupby_keys. by apply Sorted_merge_sort. Qed.

Lemma groupby_covers (rows : list A) (r : A) (k : K) :
  r ∈ rows → key r = Some k → ∃ g, g ∈ groupby R key rows ∧ g.1 = k ∧ r ∈ g.2.
Proof.
  intros Hr Hk. exists (k, filter (λ x, key x = Some k) rows). split_and!.
  - unfold groupby. apply list_elem_of_fmap. exists k. split; [done|].
    rewrite merge_sort_Permutation. apply elem_of_unique, list_elem_of_omap.
    by exists r.
  - done.
  - by apply list_elem_of_filter.
Qed.
End Partition.

(** X4.  Grouping by (country, transport type) partitions the filtered
    rows that have both: the groups, put end to end, hold every such row
    exactly as often as the table does; each lies in the group of its own
    key, and no group holds a row of another key or a row with a missing
    country or transport type; the keys come in increasing lexicographic
    order and none comes twice.  The grouping by (year, transport type)
    behind the trend chart does the same with the rows that have a
    transport type. *)
Theorem groups_partition (fd : list Row) :
  let by_pair := groupby by_country_type key_of fd in
  let by_year := groupby by_year_type year_type_of fd in
  (concat (map snd by_pair) ≡ₚ filter (λ r, is_Some (key_of r)) fd
   ∧ Sorted by_country_type (map fst by_pair)
   ∧ NoDup (map fst by_pair)
   ∧ (∀ r k, r ∈ fd → key_of r = Some k → ∃ g, g ∈ by_pair ∧ g.1 = k ∧ r ∈ g.2)
   ∧ (∀ g r, g ∈ by_pair → r ∈ g.2 → key_of r = Some g.1 ∧ r ∈ fd))
  ∧ (concat (map snd by_year) ≡ₚ filter (λ r, is_Some (year_type_of r)) fd
     ∧ Sorted by_year_type (map fst by_year)
     ∧ NoDup (map fst by_year)
     ∧ map fst (yearly_data fd) = map fst by_year
     ∧ (∀ r k, r ∈ fd → year_type_of r = Some k → ∃ g, g ∈ by_year ∧ g.1 = k ∧ r ∈ g.2)
     ∧ (∀ g r, g ∈ by_year → r ∈ g.2 → year_type_of r = Some g.1 ∧ r ∈ fd)).
Proof.
  intros by_pair by_year. split; split_and!.
  - apply groupby_concat.
  - apply groupby_keys_sorted, _.
  - apply groupby_keys_NoDup.
  - apply groupby_covers.
  - intros g r Hg Hr. apply elem_of_groupby in Hg as (E & _).
    rewrite E in Hr. by apply list_elem_of_filter in Hr.
  - apply groupby_concat.
  - apply groupby_keys_sorted, _.
  - apply groupby_keys_NoDup.
  - unfold yearly_data. by rewrite map_map.
  - apply groupby_covers.
  - intros g r Hg Hr. apply elem_of_groupby in Hg as (E & _).
    rewrite E in Hr. by apply list_elem_of_filter in Hr.
Qed.

(** ** The table and the ranking list the same groups *)

Lemma performance_group_keys (fd : list Row) :
  map (λ e, (tp_Country e, tp_Transport_Type e)) (performance_groups (scored_rows fd))
  = merge_sort by_country_type (unique (omap key_of fd)).
Proof.
  unfold performance_groups. rewrite map_map. simpl.
  transitivity (map fst (groupby by_country_type (λ x : Row * Q, key_of x.1)
                           (scored_rows fd))).
  { apply map_ext. by intros [[c t] rows]. }
  by rewrite groupby_keys, scored_rows_map, omap_map.
Qed.

Lemma display_keys (fd : list Row) :
  map (λ d, (d_Country d, d_Transport_Type d)) (display_df fd)
  = merge_sort by_country_type (unique (omap key_of fd)).
Proof.
  unfold display_df, aggregated. rewrite !map_map. simpl.
  transitivity (map fst (groupby by_country_type key_of fd)).
  { apply map_ext. by intros [[c t] rows]. }
  apply groupby_keys.
Qed.

(** X7.  The detailed table and the ranking cover the same groups.  The
    table lists each (country, transport type) pair that some filtered
    row has, once, in increasing lexicographic order, exactly as the
    aggregation behind the ranking does; the ranking holds the same
    pairs, each once, in score order.  A row with a missing country or
    transport type adds no pair. *)
Theorem table_and_ranking_groups (fd : list Row) :
  let table_keys := map (λ d, (d_Country d, d_Transport_Type d)) (display_df fd) in
  let ranked_keys :=
    map (λ e, (tp_Country e, tp_Transport_Type e)) (ranking pandas_indexer fd) in
  map (λ e, (tp_Country e, tp_Transport_Type e)) (performance_groups (scored_rows fd))
    = table_keys
  ∧ ranked_keys ≡ₚ table_keys
  ∧ NoDup ranked_keys
  ∧ NoDup table_keys
  ∧ Sorted by_country_type table_keys
  ∧ (∀ c t, (c, t) ∈ table_keys
            ↔ ∃ r, r ∈ fd ∧ Country r = Some c ∧ Transport_Type r = Some t).
Proof.
  intros table_keys ranked_keys.
  assert (ranked_keys ≡ₚ table_keys) as P.
  { unfold ranked_keys, table_keys. rewrite display_keys, <- performance_group_keys.
    apply Permutation_map, (sort_values_desc_perm _ pandas_indexer_sorts). }
  assert (NoDup table_keys) as N.
  { unfold table_keys. rewrite display_keys, merge_sort_Permutation.
    apply NoDup_unique. }
  split_and!; [|done| |done| |].
  - unfold table_keys. by rewrite display_keys, performance_group_keys.
  - by rewrite P.
  - unfold table_keys. rewrite display_keys. apply Sorted_merge_sort, _.
  - intros c t. unfold table_keys.
    rewrite display_keys, merge_sort_Permutation, elem_of_unique, list_elem_of_omap.
    split; intros (r & Hr & K); exists r; (split; [done|]); by apply key_of_Some.
Qed.

(** ** The KPIs *)

(** X9.  The number of markets analysed never exceeds the number of countries
    selected, and it is zero exactly when no row passes the filter. *)
Theorem countries_count_bounds (df : list Row) (p : FilterParams) :
  (countries_count (filtered_df df p) <= length (countries p))%nat
  ∧ (countries_count (filtered_df df p) = 0%nat ↔ filtered_df df p = []).
Proof.
  unfold countries_count. split.
  - apply submseteq_length, NoDup_submseteq; [apply NoDup_unique|].
    intros c (r & -> & Hr)%elem_of_unique%list_elem_of_fmap.
    pose proof (filtered_df_matches df p) as M. rewrite Forall_forall in M.
    by destruct (M r Hr) as [Hc _].
  - destruct (filtered_df df p) as [|r fd]; [done|]. simpl map.
    destruct (unique_cons (Country r) (map Country fd)) as [k ->]. done.
Qed.



(** ** Counting insights *)

(** X14.  The generator gives at least one and at most four lines. *)
Theorem insights_count (growth avg_sat avg_em : float64) (top : list Performer) :
  (1 <= length (insights growth avg_sat avg_em top) <= 4)%nat.
Proof.
  unfold insights.
  destruct (fgt growth (Num 10)), (flt growth (Num (-5))), (fgt avg_sat (Num 4)),
    (flt avg_sat (Num 3)), (flt avg_em (Num 2)), (fgt avg_em (Num 5)); simpl; lia.
Qed.

(** ** The first ranked group *)


